(** * HookGPT front end: the tagged-stream handlers

    A shallow embedding of the streaming code of the HookGPT front end:

    - [StreamUtils]: [JsonStreamHandler] of [app/utils/streamUtils.ts]
      (the accumulated raw content, [extractTagsFromContent],
      [processFragment], [getFinalData]);
    - [Chat]: the tag buffer of [app/components/ChatComponent.tsx]
      ([processBuffer], [appendTagContentToReply], [extractHookCode],
      [resetStreamingState], [handleStreamError], the frame loop of
      [processStreamEvents]);
    - [Page]: the handlers of [app/components/HookCreationPage.tsx] that
      the chat component calls back ([handleHookCodeData],
      [handleStreamingChange], [handleError]).

    Strings are sequences of code units.  The development covers the code
    units below 256 (ISO-8859-1), for which [trim], [toLowerCase] and the
    regular-expression class [\s] are given by the tables below. *)

From Stdlib Require Import Ascii String List ZArith Lia Bool Arith.
Import ListNotations.

Set Implicit Arguments.

(* ================================================================== *)
(** ** JavaScript strings *)
(* ================================================================== *)

Module Js.

Definition jsstring := list ascii.

(** A string literal of the source. *)
Definition str (s : string) : jsstring := list_ascii_of_string s.
Arguments str _%_string.

Definition code (c : ascii) : nat := nat_of_ascii c.

(** [s.startsWith(p)] *)
Fixpoint startsWith (s p : jsstring) {struct p} : bool :=
  match p with
  | [] => true
  | a :: p' =>
      match s with
      | [] => false
      | b :: s' => Ascii.eqb a b && startsWith s' p'
      end
  end.

(** Offset of the first occurrence of [p] in [s]. *)
Fixpoint find (p s : jsstring) : option nat :=
  if startsWith s p then Some 0
  else match s with
       | [] => None
       | _ :: s' => option_map S (find p s')
       end.

(** Positions are clamped to [0 .. length]. *)
Definition clamp (s : jsstring) (i : Z) : nat :=
  Z.to_nat (Z.min (Z.max i 0) (Z.of_nat (length s))).

(** [s.indexOf(p, position)]; [-1] when [p] does not occur. *)
Definition indexOf (s p : jsstring) (position : Z) : Z :=
  let start := clamp s position in
  match find p (skipn start s) with
  | Some i => Z.of_nat (start + i)
  | None => (-1)%Z
  end.

(** [s.includes(p, position)] *)
Definition includes (s p : jsstring) (position : Z) : bool :=
  (0 <=? indexOf s p position)%Z.

(** [s.substring(a, b)]: both ends clamped, swapped when [a > b]. *)
Definition substring (s : jsstring) (a b : Z) : jsstring :=
  let a' := clamp s a in
  let b' := clamp s b in
  firstn (Nat.max a' b' - Nat.min a' b') (skipn (Nat.min a' b') s).

(** [s.substring(a)] *)
Definition substringFrom (s : jsstring) (a : Z) : jsstring :=
  substring s a (Z.of_nat (length s)).

(** WhiteSpace and LineTerminator code units below 256:
    TAB, LF, VT, FF, CR, SP and NBSP.  This is also the class [\s]. *)
Definition isWhiteSpace (c : ascii) : bool :=
  let n := code c in
  ((9 <=? n) && (n <=? 13)) || (n =? 32) || (n =? 160).

Fixpoint trimStart (s : jsstring) : jsstring :=
  match s with
  | [] => []
  | c :: s' => if isWhiteSpace c then trimStart s' else s
  end.

Definition trimEnd (s : jsstring) : jsstring := rev (trimStart (rev s)).

(** [s.trim()] *)
Definition trim (s : jsstring) : jsstring := trimEnd (trimStart s).

(** Lower-case mapping of one code unit: A-Z, and the capital letters
    of the Latin-1 supplement (U+00C0..U+00DE without the sign U+00D7). *)
Definition toLowerChar (c : ascii) : ascii :=
  let n := code c in
  if ((65 <=? n) && (n <=? 90))
     || ((192 <=? n) && (n <=? 222) && negb (n =? 215))
  then ascii_of_nat (n + 32) else c.

(** [s.toLowerCase()] *)
Definition toLowerCase (s : jsstring) : jsstring := map toLowerChar s.

(** A value is truthy when it is a non-empty string. *)
Definition truthy (s : jsstring) : bool :=
  match s with [] => false | _ :: _ => true end.

(** Numbers, as far as [parseInt] produces them: [NaN] or an integer.
    The rounding of integers beyond 2^53 to the nearest double is not
    represented. *)
Inductive number := NaN | Int (z : Z).

Definition isNaN (n : number) : bool :=
  match n with NaN => true | Int _ => false end.

Definition digitValue (radix : nat) (c : ascii) : option nat :=
  let n := code c in
  let v := if (48 <=? n) && (n <=? 57) then Some (n - 48)
           else if (97 <=? n) && (n <=? 122) then Some (n - 87)
           else if (65 <=? n) && (n <=? 90) then Some (n - 55)
           else None in
  match v with
  | Some d => if d <? radix then Some d else None
  | None => None
  end.

(** The longest prefix of digits of [s], read in [radix]; [None] when
    there is no digit. *)
Fixpoint digits (radix : nat) (acc : option Z) (s : jsstring) : option Z :=
  match s with
  | [] => acc
  | c :: s' =>
      match digitValue radix c with
      | Some d =>
          let a := match acc with Some a => a | None => 0%Z end in
          digits radix (Some (a * Z.of_nat radix + Z.of_nat d)%Z) s'
      | None => acc
      end
  end.

(** [parseInt(s)] with no radix argument: leading white space, an
    optional sign, an optional [0x]/[0X] prefix, then digits. *)
Definition parseInt (s : jsstring) : number :=
  let s1 := trimStart s in
  let '(sign, s2) :=
    match s1 with
    | c :: r => if Ascii.eqb c "-" then ((-1)%Z, r)
                else if Ascii.eqb c "+" then (1%Z, r)
                else (1%Z, s1)
    | [] => (1%Z, s1)
    end in
  let '(radix, s3) :=
    if startsWith s2 (str "0x") || startsWith s2 (str "0X")
    then (16, skipn 2 s2) else (10, s2) in
  match digits radix None s3 with
  | Some z => Int (sign * z)
  | None => NaN
  end.

(** [s === t] on strings. *)
Fixpoint strictEquals (s t : jsstring) : bool :=
  match s, t with
  | [], [] => true
  | a :: s', b :: t' => Ascii.eqb a b && strictEquals s' t'
  | _, _ => false
  end.

(** [s.replace(p, r)] for a string pattern: the first occurrence only. *)
Definition replaceFirst (p r s : jsstring) : jsstring :=
  match find p s with
  | Some i => firstn i s ++ r ++ skipn (i + length p) s
  | None => s
  end.

(** The pieces of [s.split(sep)] for a non-empty separator: the texts
    between the occurrences of [sep], taken from the left.  [fuel]
    bounds the number of pieces; [None] when it runs out. *)
Fixpoint splitLoop (fuel : nat) (sep s : jsstring) : option (list jsstring) :=
  match fuel with
  | 0 => None
  | S n =>
      match find sep s with
      | Some i =>
          option_map (cons (firstn i s))
            (splitLoop n sep (skipn (i + length sep) s))
      | None => Some [s]
      end
  end.

(** [s.split(sep)].  A string has at most [length s] separators, so
    the default is never used (see [splitLoop_total]). *)
Definition split (sep s : jsstring) : list jsstring :=
  match splitLoop (S (length s)) sep s with
  | Some pieces => pieces
  | None => [s]
  end.

End Js.
Import Js.

(* ================================================================== *)
(** ** A backtracking matcher for the regular expressions of the source *)
(* ================================================================== *)

(** A pattern is matched against the rest of the input and hands what
    is left to its continuation; a failing continuation makes the
    pattern try its next alternative.  The result of a match is whatever
    the last continuation returns. *)
Module Regex.

Section Matchers.
Context {R : Type}.

Definition cont := jsstring -> option R.

(** A literal. *)
Definition lit (p : jsstring) (k : cont) : cont :=
  fun s => if startsWith s p then k (skipn (length p) s) else None.

(** [[\s\S]*?]: as few code units as the continuation allows. *)
Fixpoint lazyAny (k : cont) (s : jsstring) : option R :=
  match k s with
  | Some r => Some r
  | None => match s with
            | [] => None
            | _ :: s' => lazyAny k s'
            end
  end.

(** [([\s\S]*?)]: the same, capturing the code units taken
    ([acc] holds them in reverse). *)
Fixpoint lazyGroup (k : jsstring -> cont) (acc : jsstring) (s : jsstring)
  : option R :=
  match k (rev acc) s with
  | Some r => Some r
  | None => match s with
            | [] => None
            | c :: s' => lazyGroup k (c :: acc) s'
            end
  end.

(** [[cls]*]: as many code units of the class as the continuation
    allows. *)
Fixpoint greedyClass (cls : ascii -> bool) (k : cont) (s : jsstring)
  : option R :=
  match s with
  | c :: s' =>
      if cls c
      then match greedyClass cls k s' with
           | Some r => Some r
           | None => k s
           end
      else k s
  | [] => k []
  end.

(** [(w1|w2|...)]: the first alternative after which the
    continuation succeeds; the continuation receives the captured
    alternative. *)
Fixpoint altGroup (ws : list jsstring) (k : jsstring -> cont) (s : jsstring)
  : option R :=
  match ws with
  | [] => None
  | w :: ws' =>
      match lit w (k w) s with
      | Some r => Some r
      | None => altGroup ws' k s
      end
  end.

(** [[cls]+] *)
Definition greedyPlus (cls : ascii -> bool) (k : cont) : cont :=
  fun s => match s with
           | c :: s' => if cls c then greedyClass cls k s' else None
           | [] => None
           end.

(** [p?]: with the literal first, then without. *)
Definition optional (p : jsstring) (k : cont) : cont :=
  fun s => match lit p k s with
           | Some r => Some r
           | None => k s
           end.

(** The match is tried at every start position, from the left. *)
Definition search (m : cont) (s : jsstring) : option R := lazyAny m s.

(** The same, reporting also the input before the match. *)
Definition searchSplit (m : cont) (s : jsstring) : option (jsstring * R) :=
  let fix go (acc s : jsstring) :=
    match m s with
    | Some r => Some (rev acc, r)
    | None => match s with
              | [] => None
              | c :: s' => go (c :: acc) s'
              end
    end in
  go [] s.

End Matchers.

(** A successful match reports capture group 1 and the input after
    the match (where a global regular expression resumes). *)
Definition matched := (jsstring * jsstring)%type.

Definition done (capture : jsstring) : @cont matched :=
  fun rest => Some (capture, rest).

(** [/<t>([\s\S]*?)<\/t>/] for the tags [open] and [close]. *)
Definition tagRegex (open close : jsstring) : @cont matched :=
  lit open (lazyGroup (fun capture => lit close (done capture)) []).

(** [/<feature>[\s\S]*?<name>([\s\S]*?)<\/name>[\s\S]*?<\/feature>/] *)
Definition featureRegex : @cont matched :=
  lit (str "<feature>")
    (lazyAny
       (lit (str "<name>")
          (lazyGroup
             (fun capture =>
                lit (str "</name>")
                  (lazyAny (lit (str "</feature>") (done capture))))
             []))).

(** [/complexity[:\s]*(low|medium|high)/] *)
Definition complexityRegex : @cont matched :=
  lit (str "complexity")
    (greedyClass (fun c => Ascii.eqb c ":" || isWhiteSpace c)
       (altGroup [str "low"; str "medium"; str "high"] done)).

(** [content.match(re)] for a regular expression without the [g]
    flag: capture group 1 of the leftmost match. *)
Definition matchGroup1 (re : @cont matched) (content : jsstring)
  : option jsstring :=
  option_map fst (search re content).

(** The loop [while ((m = re.exec(content)) !== null) body(m[1])] for
    a regular expression with the [g] flag: [exec] resumes where the
    previous match ended.  [fuel] bounds the number of iterations;
    the loop is [None] when it runs out. *)
Fixpoint execLoop (fuel : nat) (re : @cont matched) (rest : jsstring)
  : option (list jsstring) :=
  match fuel with
  | 0 => None
  | S n =>
      match search re rest with
      | None => Some []
      | Some (capture, rest') =>
          option_map (cons capture) (execLoop n re rest')
      end
  end.

(** [/<\/?[a-zA-Z]+>/] *)
Definition isLetter (c : ascii) : bool :=
  let n := code c in
  ((65 <=? n) && (n <=? 90)) || ((97 <=? n) && (n <=? 122)).

Definition markupRegex : @cont matched :=
  lit (str "<") (optional (str "/") (greedyPlus isLetter (lit (str ">") (done [])))).

(** [text.replace(re, '')] for a regular expression with the [g]
    flag: the input without its matches.  [fuel] bounds the number of
    matches. *)
Fixpoint removeLoop (fuel : nat) (re : @cont matched) (rest : jsstring)
  : option jsstring :=
  match fuel with
  | 0 => None
  | S n =>
      match searchSplit re rest with
      | None => Some rest
      | Some (before, (_, rest')) =>
          option_map (app before) (removeLoop n re rest')
      end
  end.

End Regex.

Import Regex.

(* ================================================================== *)
(** ** app/utils/streamUtils.ts: [JsonStreamHandler] *)
(* ================================================================== *)

Module StreamUtils.

(** [Partial<UniswapHookData>]: every field may be absent.  [hookType]
    and [complexity] hold the literal the code stores. *)
Record HookData := mkHookData {
  name : option jsstring;
  description : option jsstring;
  code : option jsstring;
  hookType : option jsstring;
  gasEstimate : option number;
  complexity : option jsstring;
  functionalities : option (list jsstring);
  dependencies : option (list jsstring);
  testCode : option jsstring;
  examples : option (list jsstring);
  version : option jsstring;
  _rawContent : option jsstring;
  _replyContent : option jsstring
}.

(** [{}] *)
Definition emptyObject : HookData :=
  mkHookData None None None None None None None None None None None None None.

Definition set_name v (h : HookData) :=
  mkHookData (Some v) (description h) (code h) (hookType h) (gasEstimate h)
    (complexity h) (functionalities h) (dependencies h) (testCode h)
    (examples h) (version h) (_rawContent h) (_replyContent h).
Definition set_description v (h : HookData) :=
  mkHookData (name h) (Some v) (code h) (hookType h) (gasEstimate h)
    (complexity h) (functionalities h) (dependencies h) (testCode h)
    (examples h) (version h) (_rawContent h) (_replyContent h).
Definition set_code v (h : HookData) :=
  mkHookData (name h) (description h) (Some v) (hookType h) (gasEstimate h)
    (complexity h) (functionalities h) (dependencies h) (testCode h)
    (examples h) (version h) (_rawContent h) (_replyContent h).
Definition set_hookType v (h : HookData) :=
  mkHookData (name h) (description h) (code h) (Some v) (gasEstimate h)
    (complexity h) (functionalities h) (dependencies h) (testCode h)
    (examples h) (version h) (_rawContent h) (_replyContent h).
Definition set_gasEstimate v (h : HookData) :=
  mkHookData (name h) (description h) (code h) (hookType h) (Some v)
    (complexity h) (functionalities h) (dependencies h) (testCode h)
    (examples h) (version h) (_rawContent h) (_replyContent h).
Definition set_complexity v (h : HookData) :=
  mkHookData (name h) (description h) (code h) (hookType h) (gasEstimate h)
    (Some v) (functionalities h) (dependencies h) (testCode h)
    (examples h) (version h) (_rawContent h) (_replyContent h).
Definition set_functionalities v (h : HookData) :=
  mkHookData (name h) (description h) (code h) (hookType h) (gasEstimate h)
    (complexity h) (Some v) (dependencies h) (testCode h)
    (examples h) (version h) (_rawContent h) (_replyContent h).
Definition set_testCode v (h : HookData) :=
  mkHookData (name h) (description h) (code h) (hookType h) (gasEstimate h)
    (complexity h) (functionalities h) (dependencies h) (Some v)
    (examples h) (version h) (_rawContent h) (_replyContent h).
Definition set_examples v (h : HookData) :=
  mkHookData (name h) (description h) (code h) (hookType h) (gasEstimate h)
    (complexity h) (functionalities h) (dependencies h) (testCode h)
    (Some v) (version h) (_rawContent h) (_replyContent h).
Definition set__rawContent v (h : HookData) :=
  mkHookData (name h) (description h) (code h) (hookType h) (gasEstimate h)
    (complexity h) (functionalities h) (dependencies h) (testCode h)
    (examples h) (version h) v (_replyContent h).
Definition set__replyContent v (h : HookData) :=
  mkHookData (name h) (description h) (code h) (hookType h) (gasEstimate h)
    (complexity h) (functionalities h) (dependencies h) (testCode h)
    (examples h) (version h) (_rawContent h) v.

Definition orElse {A} (b a : option A) : option A :=
  match b with Some _ => b | None => a end.

(** [{ ...a, ...b }]: the fields of [b] win, the others come from [a]. *)
Definition spread (a b : HookData) : HookData :=
  mkHookData
    (orElse (name b) (name a))
    (orElse (description b) (description a))
    (orElse (code b) (code a))
    (orElse (hookType b) (hookType a))
    (orElse (gasEstimate b) (gasEstimate a))
    (orElse (complexity b) (complexity a))
    (orElse (functionalities b) (functionalities a))
    (orElse (dependencies b) (dependencies a))
    (orElse (testCode b) (testCode a))
    (orElse (examples b) (examples a))
    (orElse (version b) (version a))
    (orElse (_rawContent b) (_rawContent a))
    (orElse (_replyContent b) (_replyContent a)).

(** [Object.keys(h).length] *)
Definition keyCount (h : HookData) : nat :=
  let one {A} (f : option A) := match f with Some _ => 1 | None => 0 end in
  one (name h) + one (description h) + one (code h) + one (hookType h)
  + one (gasEstimate h) + one (complexity h) + one (functionalities h)
  + one (dependencies h) + one (testCode h) + one (examples h)
  + one (version h) + one (_rawContent h) + one (_replyContent h).

(** The working state of [extractTagsFromContent]: the object under
    construction and the flag [foundAnyData]. *)
Definition found := (HookData * bool)%type.

(** [if (m && m[1]) { hookData.<field> = ...; foundAnyData = true; }] *)
Definition whenMatched (m : option jsstring)
    (assign : jsstring -> HookData -> HookData) (st : found) : found :=
  match m with
  | Some group1 =>
      if truthy group1 then (assign group1 (fst st), true) else st
  | None => st
  end.

(** The [while (... exec ...)] loops: the truthy captures, trimmed.
    A match takes at least one code unit, so [S (length content)]
    iterations are enough (see [execLoop_total]); the default is
    never used. *)
Definition execAll (re : @cont matched) (content : jsstring) : list jsstring :=
  match execLoop (S (length content)) re content with
  | Some captures => map trim (filter truthy captures)
  | None => []
  end.

(** [if (items.length > 0) { hookData.<field> = items; foundAnyData = true; }] *)
Definition whenNonEmpty (items : list jsstring)
    (assign : list jsstring -> HookData -> HookData) (st : found) : found :=
  match items with
  | [] => st
  | _ :: _ => (assign items (fst st), true)
  end.

Definition hookTypes : list jsstring :=
  [ str "before swap"; str "after swap";
    str "before initialize"; str "after initialize";
    str "before modify position"; str "after modify position" ].

Definition tag (t : string) : @cont matched :=
  tagRegex (str "<" ++ str t ++ str ">") (str "</" ++ str t ++ str ">").

(** [extractTagsFromContent(content)]; [None] is [null].  Every
    operation of the [try] block is total on strings, so its [catch]
    branches are not reached. *)
Definition extractTagsFromContent (content : jsstring) : option HookData :=
  let st : found := (emptyObject, false) in
  (* Extract name *)
  let st := whenMatched (matchGroup1 (tag "name") content)
              (fun m1 => set_name (trim m1)) st in
  (* Extract description *)
  let st := whenMatched (matchGroup1 (tag "description") content)
              (fun m1 => set_description (trim m1)) st in
  (* Extract code from hookCode tag *)
  let st := whenMatched (matchGroup1 (tag "hookCode") content)
              (fun m1 => set_code (trim m1)) st in
  (* Extract gas estimate *)
  let st := whenMatched (matchGroup1 (tag "gasEstimate") content)
              (fun m1 => set_gasEstimate (parseInt (trim m1))) st in
  (* Extract complexity *)
  let st := whenMatched (matchGroup1 complexityRegex (toLowerCase content))
              (fun m1 => set_complexity m1) st in
  (* Extract functionalities from implementation details *)
  let st := whenNonEmpty (execAll featureRegex content)
              set_functionalities st in
  (* Extract test code *)
  let st := whenMatched (matchGroup1 (tag "testCode") content)
              (fun m1 => set_testCode (trim m1)) st in
  (* Extract examples *)
  let st := whenNonEmpty (execAll (tag "example") content)
              set_examples st in
  (* Extract hook type *)
  let st :=
    match List.find (fun type => includes (toLowerCase content) type 0)
                    hookTypes with
    | Some type => (set_hookType type (fst st), true)
    | None => st
    end in
  let st :=
    match hookType (fst st) with
    | None => if snd st then (set_hookType (str "custom") (fst st), snd st)
              else st
    | Some _ => st
    end in
  (* Extract reply content too (for reference) *)
  let st := whenMatched (matchGroup1 (tag "reply") content)
              (fun m1 => set__replyContent (Some (trim m1))) st in
  if snd st then Some (fst st) else None.

(** The handler object.  Its [lexer] field is never read. *)
Record JsonStreamHandler := mkHandler {
  rawContent : jsstring;
  lastParsedData : HookData
}.

(** [new JsonStreamHandler()] *)
Definition new : JsonStreamHandler := mkHandler [] emptyObject.

(** The outcome of a call: a value, or an exception. *)
Inductive completion (A : Type) := Normal (a : A) | Throw (e : jsstring).
Arguments Normal {A} a.
Arguments Throw {A} e.

Section ProcessFragment.

(** The extraction step, as [processFragment] sees it. *)
Variable extractTags : jsstring -> completion (option HookData).

(** [processFragment(contentFragment)]: the new state of the handler
    and the object returned.  The [catch] branch returns the same
    view as the [try] block, without the merge. *)
Definition processFragmentWith (this : JsonStreamHandler)
    (contentFragment : jsstring) : JsonStreamHandler * HookData :=
  (* Append to the raw content *)
  let this := mkHandler (rawContent this ++ contentFragment)
                        (lastParsedData this) in
  match extractTags (rawContent this) with
  | Normal hookData =>
      let this :=
        match hookData with
        | Some hookData =>
            mkHandler (rawContent this)
                      (spread (lastParsedData this) hookData)
        | None => this
        end in
      (this, set__rawContent (Some (rawContent this)) (lastParsedData this))
  | Throw _ =>
      (this, set__rawContent (Some (rawContent this)) (lastParsedData this))
  end.

End ProcessFragment.

Definition processFragment : JsonStreamHandler -> jsstring ->
                             JsonStreamHandler * HookData :=
  processFragmentWith (fun content => Normal (extractTagsFromContent content)).

Definition truthyField (f : option jsstring) : bool :=
  match f with Some s => truthy s | None => false end.

(** [getFinalData()] *)
Definition getFinalData (this : JsonStreamHandler) : HookData :=
  let finalData := lastParsedData this in
  let finalData :=
    if truthyField (_rawContent finalData)
    then set__rawContent None finalData else finalData in
  let finalData :=
    if truthyField (_replyContent finalData)
    then set__replyContent None finalData else finalData in
  finalData.

(** [reset()] *)
Definition reset (this : JsonStreamHandler) : JsonStreamHandler := new.

(** [getRawContent()] *)
Definition getRawContent (this : JsonStreamHandler) : jsstring :=
  rawContent this.

(** A streaming session: the fragments are fed in order to one handler. *)
Definition feed (this : JsonStreamHandler) (fragments : list jsstring)
  : JsonStreamHandler :=
  fold_left (fun h f => fst (processFragment h f)) fragments this.

End StreamUtils.

Import StreamUtils.

(* ================================================================== *)
(** ** app/components/ChatComponent.tsx: the tag buffer and the frames *)
(* ================================================================== *)

Module Chat.

(** The state [parsedContent]. *)
Record ParsedContent := mkParsed {
  reply : jsstring;
  hookCode : jsstring
}.

(** The state and the refs of the component.  State updates are
    applied in the order in which the code issues them. *)
Record Component := mkComponent {
  streamingReply : jsstring;
  isStreamingReply : bool;
  streamError : option jsstring;
  isTyping : bool;
  parsedContent : ParsedContent;
  bufferRef : jsstring;
  accumulatedReplyRef : jsstring
}.

Definition set_bufferRef v (c : Component) :=
  mkComponent (streamingReply c) (isStreamingReply c) (streamError c)
    (isTyping c) (parsedContent c) v (accumulatedReplyRef c).
Definition set_streamingReply v (c : Component) :=
  mkComponent v (isStreamingReply c) (streamError c)
    (isTyping c) (parsedContent c) (bufferRef c) (accumulatedReplyRef c).
Definition set_streamError v (c : Component) :=
  mkComponent (streamingReply c) (isStreamingReply c) v
    (isTyping c) (parsedContent c) (bufferRef c) (accumulatedReplyRef c).
Definition set_parsedContent v (c : Component) :=
  mkComponent (streamingReply c) (isStreamingReply c) (streamError c)
    (isTyping c) v (bufferRef c) (accumulatedReplyRef c).
Definition set_accumulatedReplyRef v (c : Component) :=
  mkComponent (streamingReply c) (isStreamingReply c) (streamError c)
    (isTyping c) (parsedContent c) (bufferRef c) v.
Definition set_isStreamingReply v (c : Component) :=
  mkComponent (streamingReply c) v (streamError c)
    (isTyping c) (parsedContent c) (bufferRef c) (accumulatedReplyRef c).
Definition set_isTyping v (c : Component) :=
  mkComponent (streamingReply c) (isStreamingReply c) (streamError c)
    v (parsedContent c) (bufferRef c) (accumulatedReplyRef c).

(** The component as first rendered. *)
Definition initial : Component :=
  mkComponent [] false None false (mkParsed [] []) [] [].

(** A decoded chunk of the stream: [contentText] of a data chunk is
    its content, serialized when it is an object. *)
Inductive StreamChunk :=
| DataChunk (contentText : jsstring)
| ErrorChunk (content : jsstring)
| OtherChunk.

(** An event of the stream: the sentinel [[DONE]], a chunk, or data
    that [JSON.parse] rejects. *)
Inductive StreamEvent :=
| DoneEvent
| ChunkEvent (chunk : StreamChunk)
| UnparsableEvent.

Section Props.

(** What the component acts on through its props and the session
    context. *)
Variable Env : Type.
Variable onStreamingChange : bool -> Env -> Env.
Variable onReplyReceived : jsstring -> Env -> Env.
Variable onError : jsstring -> Env -> Env.
Variable addAssistantMessage : jsstring -> Env -> Env.

Definition world := (Component * Env)%type.

(** [resetStreamingState(isStreaming)] *)
Definition resetStreamingState (isStreaming : bool) (w : world) : world :=
  let (c, env) := w in
  let c :=
    if isStreaming
    then (* When STARTING streaming, reset everything *)
      set_parsedContent (mkParsed [] [])
        (set_accumulatedReplyRef []
           (set_bufferRef [] (set_streamingReply [] c)))
    else (* When ENDING streaming, don't reset accumulated reply or
            parsed content *)
      set_bufferRef [] (set_streamingReply [] c) in
  let c := set_isStreamingReply isStreaming c in
  let c := set_streamError None c in
  let c := set_isTyping isStreaming c in
  (c, onStreamingChange isStreaming env).

(** [handleStreamError(errorMessage)] *)
Definition handleStreamError (errorMessage : jsstring) (w : world) : world :=
  let (c, env) := w in
  let c := set_streamError (Some errorMessage) c in
  let env := onError errorMessage env in
  resetStreamingState false (c, env).

(** The buffer without the region from the opening tag to the end
    of the closing tag found at [endIdx]. *)
Definition removeRegion (buffer openTag closeTag : jsstring) (endIdx : Z)
  : jsstring :=
  substring buffer 0 (indexOf buffer openTag 0)
  ++ substringFrom buffer (endIdx + Z.of_nat (length closeTag)).

(** [appendTagContentToReply(openTag, closeTag, prefix)];
    [processBuffer] is the function it calls back. *)
Definition appendTagContentToReply (processBuffer : world -> option world)
    (openTag closeTag prefix : jsstring) (w : world) : option world :=
  let (c, env) := w in
  let buffer := bufferRef c in
  if includes buffer openTag 0 then
    let startIdx := (indexOf buffer openTag 0 + Z.of_nat (length openTag))%Z in
    if includes buffer closeTag startIdx then
      let endIdx := indexOf buffer closeTag startIdx in
      let content := trim (substring buffer startIdx endIdx) in
      let c :=
        if truthy content then
          let c := set_accumulatedReplyRef
                     (accumulatedReplyRef c ++ prefix ++ content) c in
          set_parsedContent
            (mkParsed (accumulatedReplyRef c) (hookCode (parsedContent c))) c
        else c in
      (* Remove the processed tag from the buffer *)
      let c := set_bufferRef (removeRegion buffer openTag closeTag endIdx) c in
      (* Process again to handle nested or multiple tags *)
      processBuffer (c, env)
    else Some w
  else Some w.

(** [extractHookCode(openTag, closeTag)] *)
Definition extractHookCode (processBuffer : world -> option world)
    (openTag closeTag : jsstring) (w : world) : option world :=
  let (c, env) := w in
  let buffer := bufferRef c in
  if includes buffer openTag 0 then
    let startIdx := (indexOf buffer openTag 0 + Z.of_nat (length openTag))%Z in
    if includes buffer closeTag startIdx then
      let endIdx := indexOf buffer closeTag startIdx in
      let content := trim (substring buffer startIdx endIdx) in
      let '(c, env) :=
        if truthy content then
          let c := set_parsedContent
                     (mkParsed (reply (parsedContent c)) content) c in
          let formattedContent :=
            str "<hookCode>" ++ content ++ str "</hookCode>" in
          (c, onReplyReceived formattedContent env)
        else (c, env) in
      let c := set_bufferRef (removeRegion buffer openTag closeTag endIdx) c in
      processBuffer (c, env)
    else Some w
  else Some w.

(** [processBuffer()].  [fuel] bounds the depth of the calls;
    [None] when it runs out. *)
Fixpoint processBuffer (fuel : nat) (w : world) : option world :=
  match fuel with
  | 0 => None
  | S n =>
      match appendTagContentToReply (processBuffer n)
              (str "<reply>") (str "</reply>") [] w with
      | Some w =>
          extractHookCode (processBuffer n)
            (str "<hookCode>") (str "</hookCode>") w
      | None => None
      end
  end.

(** [processTextWithTypingEffect(text)] *)
Definition processTextWithTypingEffect (text : jsstring) (w : world)
  : option world :=
  let (c, env) := w in
  (* Add the text to buffer for tag parsing *)
  let c := set_bufferRef (bufferRef c ++ text) c in
  match processBuffer (S (length (bufferRef c))) (c, env) with
  | Some (c, env) =>
      match removeLoop (S (length text)) markupRegex text with
      | Some cleanedText =>
          let c := set_streamingReply (streamingReply c ++ cleanedText) c in
          let c := set_isTyping true c in
          let c := set_isStreamingReply true c in
          Some (c, env)
      | None => None
      end
  | None => None
  end.

(** One event of the loop of [processStreamEvents]; [finalReply] is
    the local variable of that function. *)
Definition handleEvent (event : StreamEvent) (st : world * jsstring)
  : option (world * jsstring) :=
  let (w, finalReply) := st in
  match event with
  | DoneEvent => Some (resetStreamingState false w, finalReply)
  | ChunkEvent (DataChunk contentText) =>
      match processTextWithTypingEffect contentText w with
      | Some w => Some (w, finalReply ++ contentText)
      | None => None
      end
  | ChunkEvent (ErrorChunk content) =>
      Some (handleStreamError content w, finalReply)
  | ChunkEvent OtherChunk => Some st
  | UnparsableEvent => Some st
  end.

Fixpoint handleEvents (events : list StreamEvent) (st : world * jsstring)
  : option (world * jsstring) :=
  match events with
  | [] => Some st
  | event :: events' =>
      match handleEvent event st with
      | Some st => handleEvents events' st
      | None => None
      end
  end.

(** [processStreamEvents(response)], for the events the response
    carries. *)
Definition processStreamEvents (events : list StreamEvent) (w : world)
  : option (world * jsstring) :=
  let (c, env) := w in
  let c := set_accumulatedReplyRef [] c in
  match handleEvents events ((c, env), []) with
  | Some ((c, env), finalReply) =>
      let finalMessage :=
        if truthy (accumulatedReplyRef c)
        then accumulatedReplyRef c else finalReply in
      let (c, env) := resetStreamingState false (c, env) in
      let env :=
        if truthy finalMessage && truthy (trim finalMessage)
        then addAssistantMessage finalMessage env else env in
      Some ((c, env), finalReply)
  | None => None
  end.

End Props.

(** [extractTagContent(content, tagName)] *)
Definition extractTagContent (content tagName : jsstring) : jsstring :=
  let openTag := str "<" ++ tagName ++ str ">" in
  let closeTag := str "</" ++ tagName ++ str ">" in
  if includes content openTag 0 && includes content closeTag 0 then
    let startIdx := (indexOf content openTag 0 + Z.of_nat (length openTag))%Z in
    let endIdx := indexOf content closeTag startIdx in
    trim (substring content startIdx endIdx)
  else [].

(** The separator of the events: an empty line. *)
Definition eventSeparator : jsstring := ["010"%char; "010"%char].

(** The framing step of the loop of [processStreamEvents]: the decoded
    text is appended to the local [buffer]; the complete events are the
    pieces before the last separator, and the piece after it is the new
    buffer ([events.pop() || ""]). *)
Definition frameEvents (buffer text : jsstring) : list jsstring * jsstring :=
  let buffer := buffer ++ text in
  let events := split eventSeparator buffer in
  (removelast events, last events []).

Section Decode.

(** [JSON.parse(data)] read as a chunk; [None] when it throws, or when
    reading the type of its result throws. *)
Variable parse : jsstring -> option StreamChunk.

(** One event of the inner loop: [None] when the event is skipped
    ([continue]). *)
Definition decodeEvent (event : jsstring) : option StreamEvent :=
  if negb (truthy (trim event)) || negb (startsWith event (str "data: "))
  then None
  else
    let data := trim (replaceFirst (str "data: ") [] event) in
    if strictEquals data (str "[DONE]") then Some DoneEvent
    else match parse data with
         | Some chunk => Some (ChunkEvent chunk)
         | None => Some UnparsableEvent
         end.

Definition decodeEvents (events : list jsstring) : list StreamEvent :=
  flat_map (fun event => match decodeEvent event with
                         | Some e => [e]
                         | None => []
                         end) events.

(** The events handled while the texts read from the response arrive,
    with the buffer left at the end. *)
Fixpoint readEvents (buffer : jsstring) (texts : list jsstring)
  : list StreamEvent * jsstring :=
  match texts with
  | [] => ([], buffer)
  | text :: texts' =>
      let (events, buffer) := frameEvents buffer text in
      let (later, buffer) := readEvents buffer texts' in
      (decodeEvents events ++ later, buffer)
  end.

End Decode.

End Chat.

(* ================================================================== *)
(** ** app/components/HookCreationPage.tsx: the callbacks of the page *)
(* ================================================================== *)

Module Page.

Record State := mkPage {
  jsonData : HookData;
  streamingHookCode : HookData;
  isStreamingHookCode : bool;
  streamingComplete : bool;
  isStreaming : bool;
  error : option jsstring;
  jsonStreamHandlerRef : option JsonStreamHandler
}.

(** [getEmptyUniswapHookData()] of [utils/jsonUtils]. *)
Definition getEmptyUniswapHookData : HookData :=
  mkHookData (Some []) (Some []) (Some []) (Some (str "custom")) None
    (Some (str "medium")) (Some []) (Some []) None None
    (Some (str "1.0.0")) None None.

Definition initial : State :=
  mkPage getEmptyUniswapHookData emptyObject false false false None None.

(** [if (m && m[1]) parsedData.<field> = ...] *)
Definition whenMatched (m : option jsstring)
    (assign : jsstring -> HookData -> HookData) (parsedData : HookData)
  : HookData :=
  match m with
  | Some group1 => if truthy group1 then assign group1 parsedData
                   else parsedData
  | None => parsedData
  end.

(** [handleHookCodeData(content)] *)
Definition handleHookCodeData (content : jsstring) (st : State) : State :=
  let hasHookCodeTag :=
    includes content (str "<hookCode>") 0
    && includes content (str "</hookCode>") 0 in
  let hookCodeMatch :=
    if hasHookCodeTag
    then match matchGroup1 (tag "hookCode") content with
         | Some m1 => if truthy m1 then Some m1 else None
         | None => None
         end
    else None in
  match hookCodeMatch with
  | Some m1 =>
      let parsedData := set_code (trim m1) emptyObject in
      let parsedData :=
        whenMatched (matchGroup1 (tag "name") content)
          (fun m1 => set_name (trim m1)) parsedData in
      let parsedData :=
        whenMatched (matchGroup1 (tag "description") content)
          (fun m1 => set_description (trim m1)) parsedData in
      let parsedData :=
        whenMatched (matchGroup1 (tag "gasEstimate") content)
          (fun m1 =>
             let gasValue := parseInt (trim m1) in
             if negb (isNaN gasValue)
             then set_gasEstimate gasValue else fun d => d)
          parsedData in
      mkPage (spread getEmptyUniswapHookData parsedData) parsedData true
        (streamingComplete st) (isStreaming st) (error st)
        (jsonStreamHandlerRef st)
  | None =>
      (* If we get here, try to process as JSON *)
      let handler :=
        match jsonStreamHandlerRef st with
        | Some handler => handler
        | None => StreamUtils.new
        end in
      let (handler, parsedData) := processFragment handler content in
      mkPage (jsonData st) parsedData true
        (streamingComplete st) (isStreaming st) (error st) (Some handler)
  end.

(** [handleStreamingChange(isStreaming)] *)
Definition handleStreamingChange (streaming : bool) (st : State) : State :=
  if negb streaming then
    let jsonData' :=
      match jsonStreamHandlerRef st with
      | Some handler =>
          if 0 <? keyCount (streamingHookCode st)
          then getFinalData handler else jsonData st
      | None => jsonData st
      end in
    mkPage jsonData' (streamingHookCode st) (isStreamingHookCode st)
      true streaming (error st) (jsonStreamHandlerRef st)
  else
    mkPage (jsonData st) emptyObject (isStreamingHookCode st)
      false streaming (error st) (jsonStreamHandlerRef st).

(** [handleError(errorMessage)] *)
Definition handleError (errorMessage : jsstring) (st : State) : State :=
  mkPage (jsonData st) (streamingHookCode st) (isStreamingHookCode st)
    (streamingComplete st) (isStreaming st) (Some errorMessage)
    (jsonStreamHandlerRef st).

(** The effect on [isStreaming]: a handler is created when streaming
    starts and dropped when it ends. *)
Definition streamingEffect (st : State) : State :=
  match isStreaming st, jsonStreamHandlerRef st with
  | true, None =>
      mkPage (jsonData st) (streamingHookCode st) (isStreamingHookCode st)
        false (isStreaming st) (error st) (Some StreamUtils.new)
  | false, Some _ =>
      mkPage (jsonData st) (streamingHookCode st) (isStreamingHookCode st)
        (streamingComplete st) (isStreaming st) (error st) None
  | _, _ => st
  end.

(** [hookDataToRender]: what the preview shows. *)
Definition hookDataToRender (st : State) : HookData :=
  if isStreamingHookCode st && (0 <? keyCount (streamingHookCode st))
  then streamingHookCode st
  else if 1 <? keyCount (jsonData st) then jsonData st
       else streamingHookCode st.

(** The chat component as the page mounts it; the session context
    is of no concern here. *)
Definition world := Chat.world State.

Definition handleStreamError : jsstring -> world -> world :=
  Chat.handleStreamError handleStreamingChange handleError.

Definition handleEvents : list Chat.StreamEvent -> world * jsstring ->
                          option (world * jsstring) :=
  Chat.handleEvents handleStreamingChange handleHookCodeData handleError.

End Page.

(* ================================================================== *)
(** ** Vocabulary of the statements *)
(* ================================================================== *)

Unset Implicit Arguments.

(** [p] occurs in [s] at offset [j]. *)
Definition occursAt (p s : jsstring) (j : nat) : Prop :=
  startsWith (skipn j s) p = true.

(** The input split at the first occurrence of [p]: what precedes it
    and what follows it. *)
Fixpoint cut (p s : jsstring) : option (jsstring * jsstring) :=
  if startsWith s p then Some ([], skipn (length p) s)
  else match s with
       | [] => None
       | c :: s' =>
           match cut p s' with
           | Some (before, after) => Some (c :: before, after)
           | None => None
           end
       end.

(** A completed region [open ... close]: the first opening tag and the
    first closing tag after it.  The result is the content and the
    input after the closing tag. *)
Definition firstRegion (open close s : jsstring) : option (jsstring * jsstring) :=
  match cut open s with
  | Some (_, afterOpen) => cut close afterOpen
  | None => None
  end.

(** A matcher that fails on an input fails on all its suffixes. *)
Definition failsOnSuffixes {R} (k : @cont R) : Prop :=
  forall s, k s = None -> forall n, k (skipn n s) = None.

(** A match leaves less input than it was given. *)
Definition consuming (re : @cont matched) : Prop :=
  forall s capture rest,
    search re s = Some (capture, rest) -> length rest < length s.

(** A match is not affected by input after it. *)
Definition stable (re : @cont matched) : Prop :=
  forall s capture rest x,
    search re s = Some (capture, rest) ->
    search re (s ++ x) = Some (capture, rest ++ x).

(** A match that succeeds still succeeds when the input is extended. *)
Definition extensible {R} (k : @cont R) : Prop :=
  forall s x, k s <> None -> k (s ++ x) <> None.

(** Group 1 of a match, when it is truthy. *)
Definition captured (re : @cont matched) (content : jsstring) : option jsstring :=
  match matchGroup1 re content with
  | Some group1 => if truthy group1 then Some group1 else None
  | None => None
  end.

(** A field of the record is set. *)
Definition isSet {A} (f : option A) : bool :=
  match f with Some _ => true | None => false end.

(** A matcher with a capture fails on the suffixes, whatever the
    capture. *)
Definition failsOnSuffixesG {R} (k : jsstring -> @cont R) : Prop :=
  forall c c' s, k c s = None -> forall n, k c' (skipn n s) = None.

(** The first [<feature>], then the first [<name>], the first
    [</name>] and the first [</feature>], each after the one before. *)
Definition firstFeature (s : jsstring) : option (jsstring * jsstring) :=
  match cut (str "<feature>") s with
  | Some (_, s1) =>
      match cut (str "<name>") s1 with
      | Some (_, s2) =>
          match cut (str "</name>") s2 with
          | Some (capture, s3) =>
              match cut (str "</feature>") s3 with
              | Some (_, rest) => Some (capture, rest)
              | None => None
              end
          | None => None
          end
      | None => None
      end
  | None => None
  end.

Definition nonEmpty (items : list jsstring) : option (list jsstring) :=
  match items with [] => None | _ :: _ => Some items end.

(** The hook-type phrase found in the content, if any. *)
Definition phraseFound (content : jsstring) : option jsstring :=
  List.find (fun type => includes (toLowerCase content) type 0) hookTypes.

(** The value of [foundAnyData] when the hook type is decided: one of
    the eight fields extracted before it is set. *)
Definition structuredFound (content : jsstring) : bool :=
  isSet (captured (tag "name") content)
  || isSet (captured (tag "description") content)
  || isSet (captured (tag "hookCode") content)
  || isSet (captured (tag "gasEstimate") content)
  || isSet (captured complexityRegex (toLowerCase content))
  || isSet (nonEmpty (execAll featureRegex content))
  || isSet (captured (tag "testCode") content)
  || isSet (nonEmpty (execAll (tag "example") content)).

(** The value of [foundAnyData] at the end. *)
Definition foundAnyData (content : jsstring) : bool :=
  structuredFound content
  || isSet (phraseFound content)
  || isSet (captured (tag "reply") content).

(** The object [hookData] at the end. *)
Definition extracted (content : jsstring) : HookData :=
  mkHookData
    (option_map trim (captured (tag "name") content))
    (option_map trim (captured (tag "description") content))
    (option_map trim (captured (tag "hookCode") content))
    (match phraseFound content with
     | Some type => Some type
     | None => if structuredFound content then Some (str "custom") else None
     end)
    (option_map (fun m1 => parseInt (trim m1))
       (captured (tag "gasEstimate") content))
    (captured complexityRegex (toLowerCase content))
    (nonEmpty (execAll featureRegex content))
    None
    (option_map trim (captured (tag "testCode") content))
    (nonEmpty (execAll (tag "example") content))
    None
    None
    (option_map trim (captured (tag "reply") content)).

(** [null] read as the empty object. *)
Definition orEmpty (hookData : option HookData) : HookData :=
  match hookData with Some h => h | None => emptyObject end.

(** The record of a handler is what the last extraction found in its
    raw content. *)
Definition recordFollowsContent (this : JsonStreamHandler) : Prop :=
  lastParsedData this = orEmpty (extractTagsFromContent (rawContent this)).

(** One of the eight structured fields is present. *)
Definition hasStructuredField (h : HookData) : bool :=
  isSet (name h) || isSet (description h) || isSet (code h)
  || isSet (gasEstimate h) || isSet (complexity h)
  || isSet (functionalities h) || isSet (testCode h) || isSet (examples h).

(** The tags whose content [extractTagsFromContent] assigns to a field
    of its own. *)
Inductive fieldTag :=
| NameTag | DescriptionTag | HookCodeTag | GasEstimateTag | TestCodeTag
| ExampleTag | ReplyTag.

Definition tagName (t : fieldTag) : string :=
  match t with
  | NameTag => "name"
  | DescriptionTag => "description"
  | HookCodeTag => "hookCode"
  | GasEstimateTag => "gasEstimate"
  | TestCodeTag => "testCode"
  | ExampleTag => "example"
  | ReplyTag => "reply"
  end.

Definition openTag (t : fieldTag) : jsstring :=
  str "<" ++ str (tagName t) ++ str ">".

Definition closeTag (t : fieldTag) : jsstring :=
  str "</" ++ str (tagName t) ++ str ">".

(** The field of the tag is present in the record. *)
Definition fieldIsSet (t : fieldTag) (h : HookData) : bool :=
  match t with
  | NameTag => isSet (name h)
  | DescriptionTag => isSet (description h)
  | HookCodeTag => isSet (code h)
  | GasEstimateTag => isSet (gasEstimate h)
  | TestCodeTag => isSet (testCode h)
  | ExampleTag => isSet (examples h)
  | ReplyTag => isSet (_replyContent h)
  end.

(** An opening tag [<x...] and a closing tag [</...] with no other [<]. *)
Definition properTags (open close : jsstring) : bool :=
  match open, close with
  | o0 :: o1 :: _, c0 :: c1 :: _ =>
      Ascii.eqb o0 "<" && negb (Ascii.eqb o1 "/")
      && forallb (fun x => negb (Ascii.eqb x "<")) (tl open)
      && Ascii.eqb c0 "<" && Ascii.eqb c1 "/"
      && forallb (fun x => negb (Ascii.eqb x "<")) (tl close)
  | _, _ => false
  end.

(** [<t></t>] *)
Definition emptyRegion (t : fieldTag) : jsstring := openTag t ++ closeTag t.

(** [p] and [u] differ at a position both have. *)
Fixpoint mismatch (p u : jsstring) : bool :=
  match p, u with
  | a :: p', b :: u' => if Ascii.eqb a b then mismatch p' u' else true
  | _, _ => false
  end.

(** [p] starts nowhere in [w], whatever follows [w]. *)
Fixpoint startsNowhere (p w : jsstring) : bool :=
  match w with
  | [] => true
  | _ :: w' => mismatch p w && startsNowhere p w'
  end.

(** The patterns looked for in the lower-cased content. *)
Definition lowerCasePatterns : list jsstring := str "complexity" :: hookTypes.

(** The first completed region of a buffer, with what precedes it. *)
Definition splitRegion (open close s : jsstring)
  : option (jsstring * jsstring * jsstring) :=
  match cut open s with
  | Some (before, afterOpen) =>
      match cut close afterOpen with
      | Some (content, after) => Some (before, content, after)
      | None => None
      end
  | None => None
  end.

(** A matcher returns no more input than it was given. *)
Definition shrinking (k : @cont matched) : Prop :=
  forall s capture rest, k s = Some (capture, rest) -> length rest <= length s.

(** The presence of each field of a record, in the order of the
    fields. *)
Definition presentFields (h : HookData) : list bool :=
  [ isSet (name h); isSet (description h); isSet (code h); isSet (hookType h);
    isSet (gasEstimate h); isSet (complexity h); isSet (functionalities h);
    isSet (dependencies h); isSet (testCode h); isSet (examples h);
    isSet (version h); isSet (_rawContent h); isSet (_replyContent h) ].

(** Every field present in [a] is present in [b]. *)
Definition keepsFields (a b : HookData) : bool :=
  forallb (fun p => implb (fst p) (snd p))
    (combine (presentFields a) (presentFields b)).

(** A value that is there does not change. *)
Definition keepsValue {A} (earlier later : option A) : Prop :=
  match earlier with
  | Some _ => later = earlier
  | None => True
  end.

(** A list that is there only gets entries at its end. *)
Definition growsAtEnd (earlier later : option (list jsstring)) : Prop :=
  match earlier with
  | Some items => exists more, later = Some (items ++ more)
  | None => True
  end.

(** A text without white space at either end. *)
Definition trimmed (s : jsstring) : Prop := trim s = s.

(** A property of the value of a field that is there. *)
Definition whenSet {A} (P : A -> Prop) (f : option A) : Prop :=
  match f with
  | Some v => P v
  | None => True
  end.

(** The record without its two diagnostic fields. *)
Definition withoutDiagnostics (h : HookData) : HookData :=
  set__rawContent None (set__replyContent None h).

(** The values of [hookType] in [UniswapHookData]. *)
Definition hookTypeValues : list jsstring := hookTypes ++ [str "custom"].

(** The values of [complexity] in [UniswapHookData]. *)
Definition complexityValues : list jsstring :=
  [str "low"; str "medium"; str "high"].

(** [`<hookCode>${content}</hookCode>`], as [extractHookCode] formats
    what it sends to the page. *)
Definition formatHookCode (content : jsstring) : jsstring :=
  str "<hookCode>" ++ content ++ str "</hookCode>".

(** The page called back with each of the contents, in order. *)
Definition handleAll (contents : list jsstring) (st : Page.State) : Page.State :=
  fold_left (fun st content => Page.handleHookCodeData content st) contents st.

(** What [processFragment] returns for a handler: its record with the
    raw content. *)
Definition partialView (this : JsonStreamHandler) : HookData :=
  set__rawContent (Some (rawContent this)) (lastParsedData this).

(** The handler the page uses on its fallback path. *)
Definition handlerOf (st : Page.State) : JsonStreamHandler :=
  match Page.jsonStreamHandlerRef st with
  | Some handler => handler
  | None => StreamUtils.new
  end.

(** The code the chat component holds, if it holds one, is the code of
    the partial record of the page. *)
Definition codeAgrees (c : Chat.Component) (page : Page.State) : Prop :=
  Chat.hookCode (Chat.parsedContent c) = []
  \/ code (Page.streamingHookCode page)
     = Some (Chat.hookCode (Chat.parsedContent c)).

(** What an ingestion step of the chat component leaves of the page. *)
Definition pageKept (c : Chat.Component) (page : Page.State)
    (c' : Chat.Component) (page' : Page.State) : Prop :=
  Page.jsonStreamHandlerRef page' = Page.jsonStreamHandlerRef page
  /\ Page.error page' = Page.error page
  /\ Page.isStreaming page' = Page.isStreaming page
  /\ (codeAgrees c page -> codeAgrees c' page').

(** The accumulated reply only gets text at its end, and the reply
    shown follows it. *)
Definition replyGrows (c c' : Chat.Component) : Prop :=
  (exists more,
      Chat.accumulatedReplyRef c' = Chat.accumulatedReplyRef c ++ more)
  /\ (Chat.reply (Chat.parsedContent c) = Chat.accumulatedReplyRef c ->
      Chat.reply (Chat.parsedContent c') = Chat.accumulatedReplyRef c').

(** The texts of the data chunks among the events, in order. *)
Definition dataTexts (events : list Chat.StreamEvent) : list jsstring :=
  flat_map (fun event => match event with
                         | Chat.ChunkEvent (Chat.DataChunk contentText) =>
                             [contentText]
                         | _ => []
                         end) events.

(** The events put back together, each followed by the separator. *)
Definition joinEvents (events : list jsstring) : jsstring :=
  concat (map (fun event => event ++ Chat.eventSeparator) events).

(** What [decodeEvent] makes of the payload of an event. *)
Definition decodedPayload (parse : jsstring -> option Chat.StreamChunk)
    (data : jsstring) : Chat.StreamEvent :=
  if strictEquals data (str "[DONE]") then Chat.DoneEvent
  else match parse data with
       | Some chunk => Chat.ChunkEvent chunk
       | None => Chat.UnparsableEvent
       end.

(* ================================================================== *)
(** ** Facts about strings *)
(* ================================================================== *)

Section StringFacts.

Lemma startsWith_split s p :
  startsWith s p = true <-> exists r, s = p ++ r.
Proof.
  revert s; induction p as [|a p IH]; intros s; simpl.
  - split; [intros _; now exists s | reflexivity].
  - destruct s as [|b s]; simpl.
    + split; [discriminate | intros [r Hr]; discriminate].
    + rewrite andb_true_iff, Ascii.eqb_eq, IH. split.
      * intros [-> [r ->]]. now exists r.
      * intros [r Hr]. injection Hr as -> ->. split; [reflexivity | now exists r].
Qed.

Lemma startsWith_skipn s p :
  startsWith s p = true -> s = p ++ skipn (length p) s.
Proof.
  intros H. apply startsWith_split in H as [r ->].
  rewrite skipn_app, skipn_all, Nat.sub_diag. reflexivity.
Qed.

Lemma startsWith_length s p :
  startsWith s p = true -> length p <= length s.
Proof.
  intros H. apply startsWith_split in H as [r ->].
  rewrite length_app. lia.
Qed.

Lemma startsWith_app s p x :
  startsWith s p = true -> startsWith (s ++ x) p = true.
Proof.
  intros H. apply startsWith_split in H as [r ->].
  apply startsWith_split. exists (r ++ x). now rewrite app_assoc.
Qed.

Lemma startsWith_app_inv s p x :
  length p <= length s ->
  startsWith (s ++ x) p = true -> startsWith s p = true.
Proof.
  revert s; induction p as [|a p IH]; intros s Hl; simpl; [reflexivity|].
  destruct s as [|b s]; simpl in *; [lia|].
  rewrite !andb_true_iff. intros [H1 H2]. split; [exact H1|].
  apply IH; [lia | exact H2].
Qed.

Lemma startsWith_nil p : startsWith [] p = true -> p = [].
Proof. destruct p; [reflexivity | discriminate]. Qed.

Lemma skipn_app_le (s x : jsstring) n :
  n <= length s -> skipn n (s ++ x) = skipn n s ++ x.
Proof.
  intros H. rewrite skipn_app.
  replace (n - length s) with 0 by lia. reflexivity.
Qed.

Lemma occursAt_bound p s j :
  p <> [] -> occursAt p s j -> j + length p <= length s.
Proof.
  unfold occursAt. intros Hp H.
  apply startsWith_length in H. rewrite length_skipn in H.
  destruct p; [congruence | simpl in *; lia].
Qed.

(** *** [cut] *)

Lemma cut_split p s before after :
  cut p s = Some (before, after) -> s = before ++ p ++ after.
Proof.
  revert before after; induction s as [|c s IH]; intros b a; simpl.
  - destruct (startsWith [] p) eqn:E; [|discriminate].
    intros H; injection H as <- <-. apply startsWith_nil in E. subst.
    reflexivity.
  - destruct (startsWith (c :: s) p) eqn:E.
    + intros H; injection H as <- <-. simpl.
      now apply startsWith_skipn in E.
    + destruct (cut p s) as [[b' a']|]; [|discriminate].
      intros H; injection H as <- <-. simpl. f_equal. now apply IH.
Qed.

Lemma cut_after p s before after :
  cut p s = Some (before, after) ->
  after = skipn (length before + length p) s.
Proof.
  intros H. apply cut_split in H. subst s.
  rewrite skipn_app.
  rewrite skipn_all2 by lia. simpl.
  replace (length before + length p - length before) with (length p) by lia.
  rewrite skipn_app, skipn_all, Nat.sub_diag. reflexivity.
Qed.

Lemma cut_occurs p s before after :
  cut p s = Some (before, after) -> occursAt p s (length before).
Proof.
  intros H. apply cut_split in H. subst s. unfold occursAt.
  rewrite skipn_app, skipn_all, Nat.sub_diag. simpl.
  apply startsWith_split. now exists after.
Qed.

Lemma cut_first p s before after j :
  cut p s = Some (before, after) -> j < length before -> ~ occursAt p s j.
Proof.
  unfold occursAt.
  revert before after j; induction s as [|c s IH]; intros b a j; simpl.
  - destruct (startsWith [] p); [|discriminate].
    intros H; injection H as <- <-. simpl. lia.
  - destruct (startsWith (c :: s) p) eqn:E.
    + intros H; injection H as <- <-. simpl. lia.
    + destruct (cut p s) as [[b' a']|] eqn:C; [|discriminate].
      intros H; injection H as <- <-. simpl. intros Hj.
      destruct j as [|j]; simpl.
      * rewrite E. discriminate.
      * apply (IH _ _ j eq_refl). lia.
Qed.

Lemma cut_None p s j : cut p s = None -> ~ occursAt p s j.
Proof.
  unfold occursAt.
  revert j; induction s as [|c s IH]; intros j; simpl.
  - destruct (startsWith [] p) eqn:E; [discriminate|].
    intros _. rewrite skipn_nil, E. discriminate.
  - destruct (startsWith (c :: s) p) eqn:E; [discriminate|].
    destruct (cut p s) as [[b' a']|] eqn:C; [discriminate|].
    intros _. destruct j as [|j]; simpl.
    + rewrite E. discriminate.
    + now apply IH.
Qed.

Lemma cut_complete p s j :
  occursAt p s j ->
  exists before after, cut p s = Some (before, after) /\ length before <= j.
Proof.
  intros H. destruct (cut p s) as [[b a]|] eqn:C.
  - exists b, a. split; [reflexivity|].
    destruct (le_lt_dec (length b) j) as [Hle|Hlt]; [exact Hle|].
    exfalso. exact (cut_first _ _ _ _ _ C Hlt H).
  - exfalso. exact (cut_None _ _ j C H).
Qed.

(** Input after a match does not change a first occurrence. *)
Lemma cut_app p s x before after :
  cut p s = Some (before, after) ->
  cut p (s ++ x) = Some (before, after ++ x).
Proof.
  revert before after; induction s as [|c s IH]; intros b a; simpl.
  - destruct (startsWith [] p) eqn:E; [|discriminate].
    intros H; injection H as <- <-. apply startsWith_nil in E. subst p.
    destruct x; reflexivity.
  - destruct (startsWith (c :: s) p) eqn:E.
    + intros H; injection H as <- <-.
      change (c :: s ++ x) with ((c :: s) ++ x).
      rewrite (startsWith_app _ _ x E).
      rewrite skipn_app_le by now apply startsWith_length.
      reflexivity.
    + destruct (cut p s) as [[b' a']|] eqn:C; [|discriminate].
      intros H; injection H as <- <-.
      change (c :: s ++ x) with ((c :: s) ++ x).
      destruct (startsWith ((c :: s) ++ x) p) eqn:E'.
      * apply startsWith_app_inv in E'; [congruence|].
        apply cut_split in C. subst s. simpl.
        rewrite !length_app. lia.
      * simpl. now rewrite (IH _ _ eq_refl).
Qed.

Lemma occursAt_skipn p s n j :
  occursAt p (skipn n s) j <-> occursAt p s (j + n).
Proof. unfold occursAt. now rewrite skipn_skipn. Qed.

Lemma cut_None_skipn p s n : cut p s = None -> cut p (skipn n s) = None.
Proof.
  intros H. destruct (cut p (skipn n s)) as [[b a]|] eqn:C; [|reflexivity].
  exfalso. apply cut_occurs in C. apply occursAt_skipn in C.
  exact (cut_None _ _ _ H C).
Qed.

(** What follows the first occurrence in a suffix is a suffix of what
    follows the first occurrence in the whole. *)
Lemma cut_skipn_after p s n b a b' a' :
  cut p s = Some (b, a) -> cut p (skipn n s) = Some (b', a') ->
  exists m, a' = skipn m a.
Proof.
  intros C C'.
  pose proof (cut_after _ _ _ _ C) as Ha.
  pose proof (cut_after _ _ _ _ C') as Ha'.
  rewrite skipn_skipn in Ha'.
  pose proof (cut_occurs _ _ _ _ C') as O. apply occursAt_skipn in O.
  destruct (le_lt_dec (length b) (length b' + n)) as [Hle|Hlt].
  - exists (length b' + n - length b). subst a a'.
    rewrite skipn_skipn. f_equal. lia.
  - exfalso. exact (cut_first _ _ _ _ _ C Hlt O).
Qed.

Lemma cut_shorter p s b a :
  p <> [] -> cut p s = Some (b, a) -> length a < length s.
Proof.
  intros Hp C. apply cut_split in C. subst s.
  rewrite !length_app. destruct p; [congruence | simpl; lia].
Qed.

Lemma find_cut p s :
  find p s = option_map (fun ba => length (fst ba)) (cut p s).
Proof.
  induction s as [|c s IH]; simpl.
  - destruct (startsWith [] p); reflexivity.
  - destruct (startsWith (c :: s) p); [reflexivity|].
    rewrite IH. destruct (cut p s) as [[b a]|]; reflexivity.
Qed.

Lemma toLowerCase_app s x :
  toLowerCase (s ++ x) = toLowerCase s ++ toLowerCase x.
Proof. apply map_app. Qed.

End StringFacts.

(* ================================================================== *)
(** ** Facts about the matcher *)
(* ================================================================== *)

Section RegexFacts.

Lemma done_failsOnSuffixes : failsOnSuffixesG done.
Proof. intros c c' s H. discriminate. Qed.

(** A lazy group followed by a literal stops at the first occurrence
    of the literal. *)
Lemma lazyGroup_lit {R} p (k : jsstring -> @cont R) acc s :
  p <> [] -> failsOnSuffixesG k ->
  lazyGroup (fun capture => lit p (k capture)) acc s =
  match cut p s with
  | Some (before, after) => k (rev acc ++ before) after
  | None => None
  end.
Proof.
  intros Hp Hk. revert acc; induction s as [|c s IH]; intros acc.
  - simpl. unfold lit.
    destruct (startsWith [] p) eqn:E; [|reflexivity].
    apply startsWith_nil in E. contradiction.
  - cbn [lazyGroup cut]. unfold lit at 1.
    destruct (startsWith (c :: s) p) eqn:E.
    + rewrite app_nil_r.
      destruct (k (rev acc) (skipn (length p) (c :: s))) eqn:K; [reflexivity|].
      rewrite IH. destruct (cut p s) as [[b a]|] eqn:C; [|reflexivity].
      apply cut_after in C. subst a.
      replace (skipn (length b + length p) s)
        with (skipn (S (length b)) (skipn (length p) (c :: s))).
      * eapply Hk. exact K.
      * rewrite skipn_skipn. simpl. f_equal.
    + rewrite IH. destruct (cut p s) as [[b a]|]; [|reflexivity].
      simpl. now rewrite <- app_assoc.
Qed.

Lemma lazyAny_lit {R} p (k : @cont R) s :
  p <> [] -> failsOnSuffixes k ->
  lazyAny (lit p k) s =
  match cut p s with
  | Some (_, after) => k after
  | None => None
  end.
Proof.
  intros Hp Hk. induction s as [|c s IH].
  - simpl. unfold lit.
    destruct (startsWith [] p) eqn:E; [|reflexivity].
    apply startsWith_nil in E. contradiction.
  - cbn [lazyAny cut]. unfold lit at 1.
    destruct (startsWith (c :: s) p) eqn:E.
    + destruct (k (skipn (length p) (c :: s))) eqn:K; [reflexivity|].
      rewrite IH. destruct (cut p s) as [[b a]|] eqn:C; [|reflexivity].
      apply cut_after in C. subst a.
      replace (skipn (length b + length p) s)
        with (skipn (S (length b)) (skipn (length p) (c :: s))).
      * now apply Hk.
      * rewrite skipn_skipn. simpl. f_equal.
    + rewrite IH. destruct (cut p s) as [[b a]|]; reflexivity.
Qed.

(** Both constructions fail on the suffixes of an input on which they
    fail. *)
Lemma cut_then_failsOnSuffixes {R} p (k : @cont R) :
  failsOnSuffixes k ->
  failsOnSuffixes
    (fun s => match cut p s with Some (_, after) => k after | None => None end).
Proof.
  intros Hk s H n.
  destruct (cut p (skipn n s)) as [[b' a']|] eqn:C'; [|reflexivity].
  destruct (cut p s) as [[b a]|] eqn:C.
  - destruct (cut_skipn_after _ _ _ _ _ _ _ C C') as [m ->]. now apply Hk.
  - rewrite (cut_None_skipn _ _ n C) in C'. discriminate.
Qed.

Lemma lazyAny_lit_failsOnSuffixes {R} p (k : @cont R) :
  p <> [] -> failsOnSuffixes k -> failsOnSuffixes (lazyAny (lit p k)).
Proof.
  intros Hp Hk s H n. rewrite lazyAny_lit in * by assumption.
  now apply (cut_then_failsOnSuffixes p k Hk s).
Qed.

Lemma lazyGroup_lit_failsOnSuffixes {R} p (k : jsstring -> @cont R) acc :
  p <> [] -> failsOnSuffixesG k ->
  failsOnSuffixes (lazyGroup (fun capture => lit p (k capture)) acc).
Proof.
  intros Hp Hk s H n. rewrite lazyGroup_lit in * by assumption.
  destruct (cut p (skipn n s)) as [[b' a']|] eqn:C'; [|reflexivity].
  destruct (cut p s) as [[b a]|] eqn:C.
  - destruct (cut_skipn_after _ _ _ _ _ _ _ C C') as [m ->].
    eapply Hk. exact H.
  - rewrite (cut_None_skipn _ _ n C) in C'. discriminate.
Qed.

(** *** The tag expressions *)

(** [/<t>([\s\S]*?)<\/t>/] finds the first opening tag and the first
    closing tag after it. *)
Theorem search_tagRegex open close s :
  open <> [] -> close <> [] ->
  search (tagRegex open close) s = firstRegion open close s.
Proof.
  intros Ho Hc. unfold search, tagRegex, firstRegion.
  rewrite lazyAny_lit.
  - destruct (cut open s) as [[b a]|]; [|reflexivity].
    rewrite lazyGroup_lit by (assumption || apply done_failsOnSuffixes).
    destruct (cut close a) as [[b' a']|]; reflexivity.
  - exact Ho.
  - apply lazyGroup_lit_failsOnSuffixes;
      [assumption | apply done_failsOnSuffixes].
Qed.

Lemma tag_open_close t :
  str "<" ++ str t ++ str ">" <> [] /\ str "</" ++ str t ++ str ">" <> [].
Proof. split; discriminate. Qed.

Lemma search_tag t s :
  search (tag t) s =
  firstRegion (str "<" ++ str t ++ str ">") (str "</" ++ str t ++ str ">") s.
Proof. apply search_tagRegex; apply tag_open_close. Qed.

Lemma firstRegion_app open close s x capture rest :
  firstRegion open close s = Some (capture, rest) ->
  firstRegion open close (s ++ x) = Some (capture, rest ++ x).
Proof.
  unfold firstRegion. destruct (cut open s) as [[b a]|] eqn:C; [|discriminate].
  intros H. rewrite (cut_app _ _ x _ _ C). now apply cut_app.
Qed.

Lemma firstRegion_shorter open close s capture rest :
  open <> [] ->
  firstRegion open close s = Some (capture, rest) -> length rest < length s.
Proof.
  unfold firstRegion. intros Ho.
  destruct (cut open s) as [[b a]|] eqn:C; [|discriminate].
  intros H. apply cut_shorter in C; [|assumption].
  apply cut_split in H. subst a. rewrite !length_app in C. lia.
Qed.

Lemma tag_stable t : stable (tag t).
Proof.
  intros s capture rest x. rewrite !search_tag. apply firstRegion_app.
Qed.

Lemma tag_consuming t : consuming (tag t).
Proof.
  intros s capture rest. rewrite search_tag.
  apply firstRegion_shorter. discriminate.
Qed.

(** *** The feature expression *)

Theorem search_featureRegex s : search featureRegex s = firstFeature s.
Proof.
  unfold search, featureRegex, firstFeature.
  assert (F4 : forall capture,
             failsOnSuffixes (lazyAny (lit (str "</feature>") (done capture)))).
  { intros capture. apply lazyAny_lit_failsOnSuffixes; [discriminate|].
    intros s0 H. discriminate. }
  assert (G3 : failsOnSuffixesG
                 (fun capture => lazyAny (lit (str "</feature>") (done capture)))).
  { intros c c' s0 H n.
    rewrite lazyAny_lit in * by (discriminate || (intros ? ?; discriminate)).
    destruct (cut (str "</feature>") s0) as [[b a]|] eqn:C; [discriminate|].
    now rewrite (cut_None_skipn _ _ n C). }
  assert (F2 : failsOnSuffixes
                 (lazyGroup
                    (fun capture =>
                       lit (str "</name>")
                         (lazyAny (lit (str "</feature>") (done capture)))) [])).
  { apply lazyGroup_lit_failsOnSuffixes; [discriminate | exact G3]. }
  rewrite lazyAny_lit; [|discriminate|].
  2: { apply lazyAny_lit_failsOnSuffixes; [discriminate | exact F2]. }
  destruct (cut (str "<feature>") s) as [[b1 s1]|]; [|reflexivity].
  rewrite lazyAny_lit; [|discriminate | exact F2].
  destruct (cut (str "<name>") s1) as [[b2 s2]|]; [|reflexivity].
  rewrite lazyGroup_lit; [|discriminate | exact G3].
  destruct (cut (str "</name>") s2) as [[capture s3]|]; [|reflexivity].
  rewrite lazyAny_lit; [|discriminate | intros ? ?; discriminate].
  destruct (cut (str "</feature>") s3) as [[b4 rest]|]; reflexivity.
Qed.

Lemma featureRegex_stable : stable featureRegex.
Proof.
  intros s capture rest x. rewrite !search_featureRegex. unfold firstFeature.
  destruct (cut (str "<feature>") s) as [[b1 s1]|] eqn:C1; [|discriminate].
  rewrite (cut_app _ _ x _ _ C1).
  destruct (cut (str "<name>") s1) as [[b2 s2]|] eqn:C2; [|discriminate].
  rewrite (cut_app _ _ x _ _ C2).
  destruct (cut (str "</name>") s2) as [[c3 s3]|] eqn:C3; [|discriminate].
  rewrite (cut_app _ _ x _ _ C3).
  destruct (cut (str "</feature>") s3) as [[b4 s4]|] eqn:C4; [|discriminate].
  rewrite (cut_app _ _ x _ _ C4).
  intros H; injection H as <- <-. reflexivity.
Qed.

Lemma featureRegex_consuming : consuming featureRegex.
Proof.
  intros s capture rest. rewrite search_featureRegex. unfold firstFeature.
  destruct (cut (str "<feature>") s) as [[b1 s1]|] eqn:C1; [|discriminate].
  destruct (cut (str "<name>") s1) as [[b2 s2]|] eqn:C2; [|discriminate].
  destruct (cut (str "</name>") s2) as [[c3 s3]|] eqn:C3; [|discriminate].
  destruct (cut (str "</feature>") s3) as [[b4 s4]|] eqn:C4; [|discriminate].
  intros H; injection H as <- <-.
  apply cut_shorter in C1, C2, C3, C4; try discriminate. lia.
Qed.

End RegexFacts.

(* ================================================================== *)
(** ** Facts about the [exec] loops *)
(* ================================================================== *)

Section LoopFacts.

Variable re : @cont matched.
Hypothesis re_consuming : consuming re.

(** Enough fuel gives the result. *)
Lemma execLoop_total fuel s :
  length s < fuel -> exists captures, execLoop fuel re s = Some captures.
Proof.
  revert s; induction fuel as [|n IH]; intros s Hlen; [lia|].
  simpl. destruct (search re s) as [[capture rest]|] eqn:E.
  - apply re_consuming in E.
    destruct (IH rest) as [l Hl]; [lia|]. rewrite Hl. now exists (capture :: l).
  - now exists [].
Qed.

Lemma execLoop_more_fuel n m s captures :
  execLoop n re s = Some captures -> n <= m ->
  execLoop m re s = Some captures.
Proof.
  revert m s captures; induction n as [|n IH]; intros m s l; [discriminate|].
  intros H Hm. destruct m as [|m]; [lia|]. simpl in *.
  destruct (search re s) as [[capture rest]|]; [|exact H].
  destruct (execLoop n re rest) as [l'|] eqn:E; [|discriminate].
  rewrite (IH m rest l' E); [exact H | lia].
Qed.

Hypothesis re_stable : stable re.

(** The matches found in an input are found again, in the same order,
    when the input is extended. *)
Lemma execLoop_app n m s x captures :
  execLoop n re s = Some captures -> length (s ++ x) < m ->
  exists more, execLoop m re (s ++ x) = Some (captures ++ more).
Proof.
  revert m s captures; induction n as [|n IH]; intros m s l; [discriminate|].
  intros H Hm. simpl in H.
  destruct (search re s) as [[capture rest]|] eqn:E.
  - destruct (execLoop n re rest) as [l'|] eqn:E'; [|discriminate].
    injection H as <-.
    destruct m as [|m]; [lia|]. simpl.
    rewrite (re_stable _ _ _ x E).
    pose proof (re_consuming _ _ _ E) as Hlt.
    destruct (IH m rest l' E') as [more Hmore].
    { rewrite length_app in *. lia. }
    rewrite Hmore. now exists more.
  - injection H as <-. simpl. now apply execLoop_total.
Qed.

Lemma execAll_app s x :
  exists more, execAll re (s ++ x) = execAll re s ++ more.
Proof.
  unfold execAll.
  destruct (execLoop_total (S (length s)) s) as [l Hl]; [lia|].
  destruct (execLoop_app _ (S (length (s ++ x))) _ x _ Hl) as [more Hmore]; [lia|].
  rewrite Hl, Hmore, filter_app, map_app. eauto.
Qed.

End LoopFacts.

(* ================================================================== *)
(** ** Facts about [/complexity[:\s]*(low|medium|high)/] *)
(* ================================================================== *)

Section ComplexityFacts.

Context {R : Type}.

Lemma lit_extensible p (k : @cont R) : extensible k -> extensible (lit p k).
Proof.
  intros Hk s x. unfold lit.
  destruct (startsWith s p) eqn:E; [|congruence].
  rewrite (startsWith_app _ _ x E).
  rewrite skipn_app_le by now apply startsWith_length.
  apply Hk.
Qed.

Lemma lazyAny_extensible (k : @cont R) : extensible k -> extensible (lazyAny k).
Proof.
  intros Hk s x. induction s as [|c s IH]; simpl.
  - destruct (k []) eqn:E; [|congruence]. intros _.
    assert (H : k ([] ++ x) <> None) by (apply Hk; congruence).
    simpl in H. destruct x as [|c x]; simpl.
    + rewrite E. discriminate.
    + destruct (k (c :: x)); congruence.
  - destruct (k (c :: s)) eqn:E.
    + intros _.
      assert (H : k ((c :: s) ++ x) <> None) by (apply Hk; congruence).
      simpl in H. destruct (k (c :: s ++ x)); congruence.
    + intros H. destruct (k (c :: s ++ x)); [congruence | now apply IH].
Qed.

Lemma greedyClass_extensible cls (k : @cont R) :
  extensible k -> extensible (greedyClass cls k).
Proof.
  intros Hk s x. induction s as [|c s IH]; simpl.
  - intros H. assert (H' : k ([] ++ x) <> None) by now apply Hk.
    simpl in H'. destruct x as [|c x]; simpl; [exact H'|].
    destruct (cls c); [|exact H'].
    destruct (greedyClass cls k x); [congruence | exact H'].
  - destruct (cls c).
    + intros H.
      assert (Hs : k (c :: s) <> None -> k (c :: s ++ x) <> None)
        by (intros Hn; apply (Hk (c :: s) x Hn)).
      destruct (greedyClass cls k s) eqn:G.
      * destruct (greedyClass cls k (s ++ x)); [congruence|].
        exfalso. apply IH; congruence.
      * destruct (greedyClass cls k (s ++ x)); [congruence | now apply Hs].
    + intros H. apply (Hk (c :: s) x H).
Qed.

Lemma altGroup_extensible ws (k : jsstring -> @cont R) :
  (forall w, extensible (k w)) -> extensible (altGroup ws k).
Proof.
  intros Hk s x. induction ws as [|w ws IH]; simpl; [congruence|].
  destruct (lit w (k w) s) eqn:E.
  - intros _.
    assert (H : lit w (k w) (s ++ x) <> None)
      by (apply lit_extensible; [apply Hk | congruence]).
    destruct (lit w (k w) (s ++ x)); congruence.
  - intros H. destruct (lit w (k w) (s ++ x)); [congruence | now apply IH].
Qed.

Lemma lazyAny_inv (k : @cont R) s r :
  lazyAny k s = Some r -> exists n, k (skipn n s) = Some r.
Proof.
  induction s as [|c s IH]; simpl.
  - destruct (k []) eqn:E; [|discriminate]. intros H. exists 0. simpl. congruence.
  - destruct (k (c :: s)) eqn:E.
    + intros H. exists 0. simpl. congruence.
    + intros H. destruct (IH H) as [n Hn]. now exists (S n).
Qed.

Lemma greedyClass_inv cls (k : @cont R) s r :
  greedyClass cls k s = Some r -> exists n, k (skipn n s) = Some r.
Proof.
  induction s as [|c s IH]; simpl.
  - intros H. now exists 0.
  - destruct (cls c); [|intros H; now exists 0].
    destruct (greedyClass cls k s) eqn:G.
    + intros H. destruct (IH H) as [n Hn]. now exists (S n).
    + intros H. now exists 0.
Qed.

Lemma altGroup_inv ws (k : jsstring -> @cont R) s r :
  altGroup ws k s = Some r ->
  exists w, In w ws /\ k w (skipn (length w) s) = Some r.
Proof.
  induction ws as [|w ws IH]; simpl; [discriminate|].
  destruct (lit w (k w) s) eqn:E.
  - intros H. exists w. split; [now left|]. unfold lit in E.
    destruct (startsWith s w); congruence.
  - intros H. destruct (IH H) as [w' [Hin Hw']]. exists w'. split; [now right | exact Hw'].
Qed.

End ComplexityFacts.

Lemma done_extensible capture : extensible (done capture).
Proof. intros s x _. discriminate. Qed.

Lemma complexityRegex_extensible : extensible (search complexityRegex).
Proof.
  apply lazyAny_extensible, lit_extensible, greedyClass_extensible,
    altGroup_extensible.
  intros w. apply done_extensible.
Qed.

(** Group 1 of a match of the complexity expression is one of the three
    words. *)
Lemma complexityRegex_group1 s capture rest :
  search complexityRegex s = Some (capture, rest) ->
  In capture [str "low"; str "medium"; str "high"].
Proof.
  intros H. apply lazyAny_inv in H as [n H].
  unfold complexityRegex, lit at 1 in H.
  destruct (startsWith (skipn n s) (str "complexity")); [|discriminate].
  apply greedyClass_inv in H as [m H].
  apply altGroup_inv in H as [w [Hin H]].
  unfold done in H. injection H as <- _. exact Hin.
Qed.

Lemma captured_complexity_app s x :
  isSet (captured complexityRegex s) = true ->
  isSet (captured complexityRegex (s ++ x)) = true.
Proof.
  unfold captured, matchGroup1.
  destruct (search complexityRegex s) as [[c r]|] eqn:E; [|discriminate].
  intros _.
  assert (H : search complexityRegex (s ++ x) <> None)
    by (apply complexityRegex_extensible; congruence).
  destruct (search complexityRegex (s ++ x)) as [[c' r']|] eqn:E'; [|congruence].
  simpl. apply complexityRegex_group1 in E'.
  simpl in E'. destruct E' as [<-|[<-|[<-|[]]]]; reflexivity.
Qed.

Lemma captured_tag_app t s x group1 :
  captured (tag t) s = Some group1 ->
  captured (tag t) (s ++ x) = Some group1.
Proof.
  unfold captured, matchGroup1.
  destruct (search (tag t) s) as [[c r]|] eqn:E; [|discriminate].
  rewrite (tag_stable t _ _ _ x E). simpl. tauto.
Qed.

(* ================================================================== *)
(** ** [extractTagsFromContent], field by field *)
(* ================================================================== *)

Section ExtractFacts.

Lemma whenMatched_captured re content assign st :
  StreamUtils.whenMatched (matchGroup1 re content) assign st =
  match captured re content with
  | Some group1 => (assign group1 (fst st), true)
  | None => st
  end.
Proof.
  unfold StreamUtils.whenMatched, captured.
  destruct (matchGroup1 re content) as [g|]; [|reflexivity].
  destruct (truthy g); reflexivity.
Qed.

Lemma whenNonEmpty_nonEmpty items assign st :
  whenNonEmpty items assign st =
  match nonEmpty items with
  | Some items => (assign items (fst st), true)
  | None => st
  end.
Proof. destruct items; reflexivity. Qed.

Theorem extractTagsFromContent_fields content :
  extractTagsFromContent content =
  if foundAnyData content then Some (extracted content) else None.
Proof.
  unfold extractTagsFromContent, foundAnyData, extracted, structuredFound.
  rewrite !whenMatched_captured, !whenNonEmpty_nonEmpty.
  fold (phraseFound content).
  generalize (captured (tag "name") content),
    (captured (tag "description") content),
    (captured (tag "hookCode") content),
    (captured (tag "gasEstimate") content),
    (captured complexityRegex (toLowerCase content)),
    (nonEmpty (execAll featureRegex content)),
    (captured (tag "testCode") content),
    (nonEmpty (execAll (tag "example") content)),
    (phraseFound content),
    (captured (tag "reply") content).
  intros [?|] [?|] [?|] [?|] [?|] [?|] [?|] [?|] [?|] [?|]; reflexivity.
Qed.

Lemma extract_Some content h :
  extractTagsFromContent content = Some h ->
  foundAnyData content = true /\ h = extracted content.
Proof.
  rewrite extractTagsFromContent_fields.
  destruct (foundAnyData content); [|discriminate].
  intros H; injection H as <-. split; reflexivity.
Qed.

Lemma extract_None content :
  extractTagsFromContent content = None -> foundAnyData content = false.
Proof.
  rewrite extractTagsFromContent_fields.
  destruct (foundAnyData content); [discriminate | reflexivity].
Qed.

End ExtractFacts.

(* ================================================================== *)
(** ** Extending the content *)
(* ================================================================== *)

Section Extending.

Lemma indexOf_cut s p position :
  indexOf s p position =
  match cut p (skipn (clamp s position) s) with
  | Some (before, _) => Z.of_nat (clamp s position + length before)
  | None => (-1)%Z
  end.
Proof.
  unfold indexOf. rewrite find_cut.
  destruct (cut p (skipn (clamp s position) s)) as [[b a]|]; reflexivity.
Qed.

Lemma includes_cut s p position :
  includes s p position = isSet (cut p (skipn (clamp s position) s)).
Proof.
  unfold includes. rewrite indexOf_cut.
  destruct (cut p (skipn (clamp s position) s)) as [[b a]|]; simpl.
  - apply Z.leb_le. lia.
  - reflexivity.
Qed.

Lemma clamp_0 s : clamp s 0 = 0.
Proof. unfold clamp. lia. Qed.

Lemma includes_app s p x :
  includes s p 0 = true -> includes (s ++ x) p 0 = true.
Proof.
  rewrite !includes_cut, !clamp_0. simpl.
  destruct (cut p s) as [[b a]|] eqn:C; [|discriminate].
  now rewrite (cut_app _ _ x _ _ C).
Qed.

Lemma phraseFound_app s x :
  isSet (phraseFound s) = true -> isSet (phraseFound (s ++ x)) = true.
Proof.
  unfold phraseFound.
  destruct (List.find _ hookTypes) as [type|] eqn:F; [|discriminate].
  intros _. apply find_some in F as [Hin Hinc].
  rewrite toLowerCase_app.
  destruct (List.find (fun type => includes (toLowerCase s ++ toLowerCase x) type 0)
              hookTypes) eqn:F'; [reflexivity|].
  apply (find_none _ _ F') in Hin.
  now rewrite (includes_app _ _ _ Hinc) in Hin.
Qed.

Lemma isSet_captured_tag_app t s x :
  isSet (captured (tag t) s) = true -> isSet (captured (tag t) (s ++ x)) = true.
Proof.
  destruct (captured (tag t) s) eqn:E; [|discriminate].
  now rewrite (captured_tag_app _ _ x _ E).
Qed.

Lemma nonEmpty_execAll_app re s x :
  consuming re -> stable re ->
  isSet (nonEmpty (execAll re s)) = true ->
  isSet (nonEmpty (execAll re (s ++ x))) = true.
Proof.
  intros Hc Hs. destruct (execAll_app re Hc Hs s x) as [more ->].
  destruct (execAll re s); [discriminate | reflexivity].
Qed.

Lemma orb_mono a b a' b' :
  (a = true -> a' = true) -> (b = true -> b' = true) ->
  a || b = true -> a' || b' = true.
Proof. destruct a, b, a', b'; intuition congruence. Qed.

Lemma structuredFound_app s x :
  structuredFound s = true -> structuredFound (s ++ x) = true.
Proof.
  unfold structuredFound.
  repeat apply orb_mono; try apply isSet_captured_tag_app.
  - rewrite toLowerCase_app. apply captured_complexity_app.
  - apply nonEmpty_execAll_app;
      [apply featureRegex_consuming | apply featureRegex_stable].
  - apply nonEmpty_execAll_app; [apply tag_consuming | apply tag_stable].
Qed.

(** Data found in a content is found in every extension of it. *)
Lemma foundAnyData_app s x :
  foundAnyData s = true -> foundAnyData (s ++ x) = true.
Proof.
  unfold foundAnyData.
  apply orb_mono; [apply orb_mono|].
  - apply structuredFound_app.
  - apply phraseFound_app.
  - apply isSet_captured_tag_app.
Qed.

Lemma orElse_set {A} (b a : option A) :
  (isSet a = true -> isSet b = true) -> orElse b a = b.
Proof. destruct b, a; simpl; intuition congruence. Qed.

Lemma isSet_option_map {A B} (f : A -> B) o : isSet (option_map f o) = isSet o.
Proof. destruct o; reflexivity. Qed.

(** Every field extracted from a content is extracted again from every
    extension of it, so the later object overwrites the earlier one. *)
Lemma spread_extracted_app s x :
  spread (extracted s) (extracted (s ++ x)) = extracted (s ++ x).
Proof.
  unfold spread, extracted; cbn [name description code hookType gasEstimate
    complexity functionalities dependencies testCode examples version
    _rawContent _replyContent].
  f_equal; try reflexivity; apply orElse_set; rewrite ?isSet_option_map;
    try apply isSet_captured_tag_app.
  - pose proof (phraseFound_app s x) as P.
    pose proof (structuredFound_app s x) as Q.
    destruct (phraseFound (s ++ x)); [reflexivity|].
    destruct (phraseFound s); [discriminate (P eq_refl)|].
    destruct (structuredFound s); [|discriminate].
    now rewrite Q.
  - rewrite toLowerCase_app. apply captured_complexity_app.
  - apply nonEmpty_execAll_app;
      [apply featureRegex_consuming | apply featureRegex_stable].
  - apply nonEmpty_execAll_app; [apply tag_consuming | apply tag_stable].
Qed.

Lemma orElse_None {A} (b : option A) : orElse b None = b.
Proof. now destruct b. Qed.

Lemma spread_emptyObject h : spread emptyObject h = h.
Proof.
  destruct h. unfold spread. simpl. now rewrite !orElse_None.
Qed.

(** The object merged into the record after a longer content replaces
    the one merged after a shorter content. *)
Lemma extract_app s x :
  match extractTagsFromContent (s ++ x) with
  | Some hookData => spread (orEmpty (extractTagsFromContent s)) hookData
  | None => orEmpty (extractTagsFromContent s)
  end = orEmpty (extractTagsFromContent (s ++ x)).
Proof.
  rewrite !extractTagsFromContent_fields.
  pose proof (foundAnyData_app s x) as M.
  destruct (foundAnyData (s ++ x)); simpl.
  - destruct (foundAnyData s); simpl.
    + apply spread_extracted_app.
    + apply spread_emptyObject.
  - destruct (foundAnyData s); [|reflexivity].
    discriminate (M eq_refl).
Qed.

End Extending.

(* ================================================================== *)
(** ** Sessions of [JsonStreamHandler] *)
(* ================================================================== *)

Section Sessions.

Lemma processFragment_rawContent this fragment :
  rawContent (fst (processFragment this fragment)) = rawContent this ++ fragment.
Proof.
  unfold processFragment, processFragmentWith. simpl.
  destruct (extractTagsFromContent (rawContent this ++ fragment)); reflexivity.
Qed.

Lemma processFragment_lastParsedData this fragment :
  lastParsedData (fst (processFragment this fragment)) =
  match extractTagsFromContent (rawContent this ++ fragment) with
  | Some hookData => spread (lastParsedData this) hookData
  | None => lastParsedData this
  end.
Proof.
  unfold processFragment, processFragmentWith. simpl.
  destruct (extractTagsFromContent (rawContent this ++ fragment)); reflexivity.
Qed.

Lemma new_recordFollowsContent : recordFollowsContent StreamUtils.new.
Proof. reflexivity. Qed.

Lemma processFragment_recordFollowsContent this fragment :
  recordFollowsContent this ->
  recordFollowsContent (fst (processFragment this fragment)).
Proof.
  unfold recordFollowsContent. intros H.
  rewrite processFragment_lastParsedData, processFragment_rawContent, H.
  apply extract_app.
Qed.

Lemma feed_cons this fragment fragments :
  feed this (fragment :: fragments) =
  feed (fst (processFragment this fragment)) fragments.
Proof. reflexivity. Qed.

Lemma feed_rawContent fragments this :
  rawContent (feed this fragments) = rawContent this ++ concat fragments.
Proof.
  revert this; induction fragments as [|f fs IH]; intros this.
  - simpl. now rewrite app_nil_r.
  - rewrite feed_cons, IH, processFragment_rawContent. simpl.
    now rewrite app_assoc.
Qed.

Lemma feed_recordFollowsContent fragments this :
  recordFollowsContent this -> recordFollowsContent (feed this fragments).
Proof.
  revert this; induction fragments as [|f fs IH]; intros this H; [exact H|].
  rewrite feed_cons. apply IH.
  now apply processFragment_recordFollowsContent.
Qed.

(** The record of a session is the extraction of everything fed. *)
Lemma feed_new fragments :
  lastParsedData (feed StreamUtils.new fragments) =
  orEmpty (extractTagsFromContent (concat fragments)).
Proof.
  pose proof (feed_recordFollowsContent fragments _ new_recordFollowsContent) as H.
  unfold recordFollowsContent in H. now rewrite feed_rawContent in H.
Qed.

End Sessions.

(* ================================================================== *)
(** ** The stream handler: scalar fields, splits, lists, failures *)
(* ================================================================== *)

Lemma getFinalData_lastParsedData a b :
  lastParsedData a = lastParsedData b -> getFinalData a = getFinalData b.
Proof. unfold getFinalData. now intros ->. Qed.

Lemma getFinalData_name this : name (getFinalData this) = name (lastParsedData this).
Proof.
  unfold getFinalData.
  destruct (truthyField (_rawContent (lastParsedData this)));
    destruct (truthyField (_replyContent _)); reflexivity.
Qed.

Lemma captured_firstRegion t s content rest :
  firstRegion (str "<" ++ str t ++ str ">") (str "</" ++ str t ++ str ">") s
  = Some (content, rest) ->
  captured (tag t) s = if truthy content then Some content else None.
Proof.
  unfold captured, matchGroup1. rewrite search_tag. now intros ->.
Qed.

Lemma captured_None t s :
  firstRegion (str "<" ++ str t ++ str ">") (str "</" ++ str t ++ str ">") s
  = None ->
  captured (tag t) s = None.
Proof.
  unfold captured, matchGroup1. rewrite search_tag. now intros ->.
Qed.

Lemma isSet_foundAnyData_name s :
  isSet (captured (tag "name") s) = true -> foundAnyData s = true.
Proof.
  unfold foundAnyData, structuredFound. intros ->. reflexivity.
Qed.

(** C1, as the code has it: the first completed [<name>] region of the
    session fixes the field.  When the fragments fed so far contain a
    completed region [<name>content</name>] with a non-empty content,
    the record keeps [name = trim content] whatever is fed later, a
    second completed [<name>] region included. *)
Theorem first_name_region_wins (before after : list jsstring)
    (content rest : jsstring) :
  firstRegion (str "<name>") (str "</name>") (concat before)
    = Some (content, rest) ->
  content <> [] ->
  name (lastParsedData (feed StreamUtils.new (before ++ after)))
    = Some (trim content)
  /\ name (getFinalData (feed StreamUtils.new (before ++ after)))
    = Some (trim content).
Proof.
  intros Hregion Hcontent.
  assert (C : captured (tag "name") (concat (before ++ after)) = Some content).
  { rewrite concat_app. apply captured_tag_app.
    rewrite (captured_firstRegion "name" _ _ _ Hregion).
    destruct content; [contradiction | reflexivity]. }
  rewrite getFinalData_name, feed_new, extractTagsFromContent_fields.
  rewrite isSet_foundAnyData_name by now rewrite C.
  simpl. now rewrite C.
Qed.

Lemma first_name_region_wins_witness :
  firstRegion (str "<name>") (str "</name>") (concat [str "<name>A</name>"])
    = Some (str "A", [])
  /\ str "A" <> []
  /\ name (lastParsedData
             (feed StreamUtils.new ([str "<name>A</name>"] ++ [str "<name>B</name>"])))
     = Some (trim (str "A")).
Proof.
  split; [vm_compute; reflexivity|]. split; [discriminate|].
  apply (first_name_region_wins [str "<name>A</name>"] [str "<name>B</name>"]
           (str "A") []); [vm_compute; reflexivity | discriminate].
Defined.

(** C1 fails on the code: after [<name>A</name>] and then
    [<name>B</name>] the record returned has [name = "A"], not ["B"]. *)
Lemma second_name_region_ignored :
  let this := fst (processFragment StreamUtils.new (str "<name>A</name>")) in
  let record := snd (processFragment this (str "<name>B</name>")) in
  name record = Some (str "A") /\ name record <> Some (str "B").
Proof. vm_compute. split; [reflexivity | discriminate]. Qed.

(** C2: split-boundary invariance.  Whatever the payload and however
    it is split into fragments, feeding the fragments in order to a new
    handler and finalizing gives the record obtained by feeding the
    payload as one fragment. *)
Theorem split_boundary_invariance (payload : jsstring)
    (fragments : list jsstring) :
  concat fragments = payload ->
  getFinalData (feed StreamUtils.new fragments)
  = getFinalData (fst (processFragment StreamUtils.new payload)).
Proof.
  intros <-. apply getFinalData_lastParsedData.
  rewrite feed_new, processFragment_lastParsedData. simpl.
  destruct (extractTagsFromContent (concat fragments)); [|reflexivity].
  simpl. now rewrite spread_emptyObject.
Qed.

Lemma split_boundary_invariance_witness :
  let payload := str "<name>Fee Hook</name> runs after swap <hookCode>contract A{}</hookCode>" in
  let fragments := [str "<na"; str "me>Fee Hook</name> runs af"; [];
                    str "ter swap <hookCode>contract A{}</hook"; str "Code>"] in
  concat fragments = payload
  /\ getFinalData (feed StreamUtils.new fragments)
     = getFinalData (fst (processFragment StreamUtils.new payload)).
Proof.
  split; [vm_compute; reflexivity|].
  apply split_boundary_invariance. vm_compute. reflexivity.
Defined.

(** C4 fails on [extractTagsFromContent]: a completed
    [<gasEstimate>] region with a non-numeric content assigns the field
    ([NaN]) and counts as data found, so that the hook type is
    defaulted as well. *)
Theorem gasEstimate_not_a_number_is_assigned :
  extractTagsFromContent (str "<gasEstimate>abc</gasEstimate>")
  = Some (set_hookType (str "custom") (set_gasEstimate NaN emptyObject))
  /\ gasEstimate
       (snd (processFragment StreamUtils.new (str "<gasEstimate>abc</gasEstimate>")))
     = Some NaN.
Proof. split; vm_compute; reflexivity. Qed.

(** Whatever the content is, a completed [<gasEstimate>] region with a
    non-empty content is assigned what [parseInt] returns. *)
Lemma gasEstimate_assigned content group1 rest :
  firstRegion (str "<gasEstimate>") (str "</gasEstimate>") content
    = Some (group1, rest) ->
  group1 <> [] ->
  exists hookData,
    extractTagsFromContent content = Some hookData
    /\ gasEstimate hookData = Some (parseInt (trim group1)).
Proof.
  intros Hregion Hne.
  assert (C : captured (tag "gasEstimate") content = Some group1).
  { rewrite (captured_firstRegion "gasEstimate" _ _ _ Hregion).
    destruct group1; [contradiction | reflexivity]. }
  rewrite extractTagsFromContent_fields.
  assert (F : foundAnyData content = true).
  { unfold foundAnyData, structuredFound. rewrite C. simpl.
    now rewrite !orb_true_r. }
  rewrite F. eexists. split; [reflexivity|]. simpl. now rewrite C.
Qed.

(** The page, on its own tag path, does drop such a value. *)
Lemma handleHookCodeData_drops_not_a_number :
  gasEstimate
    (Page.streamingHookCode
       (Page.handleHookCodeData
          (str "<hookCode>contract A{}</hookCode><gasEstimate>abc</gasEstimate>")
          Page.initial))
  = None.
Proof. vm_compute. reflexivity. Qed.

(** C5, as the code has it: on every pass the list of examples is built
    anew from all the completed [<example>] regions of the whole raw
    content, in order; nothing is carried over from the list of an
    earlier pass.  The content is never consumed, so the entries of a
    first block are found again next to those of a second block: two
    entries and then the same two with a third make five. *)
Theorem examples_rebuilt_from_raw_content :
  (forall fragments : list jsstring,
      examples (lastParsedData (feed StreamUtils.new fragments))
      = nonEmpty (execAll (tag "example") (concat fragments)))
  /\ examples
       (lastParsedData
          (feed StreamUtils.new
             [str "<examples><example>a</example><example>b</example></examples>";
              str "<examples><example>a</example><example>b</example><example>c</example></examples>"]))
     = Some [str "a"; str "b"; str "a"; str "b"; str "c"].
Proof.
  split; [|vm_compute; reflexivity].
  intros fragments. rewrite feed_new, extractTagsFromContent_fields.
  destruct (foundAnyData (concat fragments)) eqn:F; [reflexivity|].
  unfold foundAnyData, structuredFound in F.
  destruct (nonEmpty (execAll (tag "example") (concat fragments)));
    [|reflexivity].
  simpl in F. now rewrite !orb_true_r in F.
Qed.

(** C5 fails on the code: the two blocks of the scenario give a list of
    five entries, not three. *)
Lemma examples_of_two_blocks_are_five :
  let record :=
    lastParsedData
      (feed StreamUtils.new
         [str "<examples><example>a</example><example>b</example></examples>";
          str "<examples><example>a</example><example>b</example><example>c</example></examples>"]) in
  option_map (@length jsstring) (examples record) = Some 5
  /\ option_map (@length jsstring) (examples record) <> Some 3.
Proof. vm_compute. split; [reflexivity | discriminate]. Qed.


(** A region left incomplete stays in the raw content, and the field is
    set by the fragment that completes it. *)
Lemma incomplete_region_completed_later :
  let this := fst (processFragment StreamUtils.new (str "<description>partial ")) in
  description (lastParsedData this) = None
  /\ rawContent this = str "<description>partial "
  /\ description (snd (processFragment this (str "text</description>")))
     = Some (str "partial text").
Proof. vm_compute. repeat split; reflexivity. Qed.

Lemma hasStructuredField_extracted content :
  hasStructuredField (extracted content) = structuredFound content.
Proof.
  unfold hasStructuredField, structuredFound, extracted; simpl.
  now rewrite !isSet_option_map.
Qed.

Lemma phraseFound_None content :
  (forall type, In type hookTypes ->
                includes (toLowerCase content) type 0 = false) ->
  phraseFound content = None.
Proof.
  intros H. unfold phraseFound.
  destruct (List.find _ hookTypes) as [type|] eqn:F; [|reflexivity].
  apply find_some in F as [Hin Hinc]. now rewrite (H _ Hin) in Hinc.
Qed.

(** C8: when the extraction from the accumulated content sets one of
    the structured fields and none of the six phrases occurs in the
    lower-cased content, the hook type of the extracted object, and of
    the record after the merge, is ["custom"]. *)
Theorem hookType_defaults_to_custom (this : JsonStreamHandler)
    (fragment : jsstring) (hookData : HookData) :
  extractTagsFromContent (rawContent this ++ fragment) = Some hookData ->
  hasStructuredField hookData = true ->
  (forall type, In type hookTypes ->
     includes (toLowerCase (rawContent this ++ fragment)) type 0 = false) ->
  hookType hookData = Some (str "custom")
  /\ hookType (lastParsedData (fst (processFragment this fragment)))
     = Some (str "custom")
  /\ hookType (snd (processFragment this fragment)) = Some (str "custom").
Proof.
  intros Hextract Hfield Hphrases.
  pose proof (extract_Some _ _ Hextract) as [_ ->].
  rewrite hasStructuredField_extracted in Hfield.
  assert (H : hookType (extracted (rawContent this ++ fragment))
              = Some (str "custom")).
  { simpl. now rewrite (phraseFound_None _ Hphrases), Hfield. }
  split; [exact H|].
  unfold processFragment, processFragmentWith. simpl. rewrite Hextract.
  simpl. simpl in H. rewrite H. split; reflexivity.
Qed.

Lemma hookType_defaults_to_custom_witness :
  let content := str "<hookCode>contract A{}</hookCode>" in
  let hookData := set_hookType (str "custom") (set_code (str "contract A{}") emptyObject) in
  extractTagsFromContent (rawContent StreamUtils.new ++ content) = Some hookData
  /\ hasStructuredField hookData = true
  /\ hookType (lastParsedData (fst (processFragment StreamUtils.new content)))
     = Some (str "custom").
Proof.
  split; [vm_compute; reflexivity|]. split; [reflexivity|].
  apply (hookType_defaults_to_custom StreamUtils.new
           (str "<hookCode>contract A{}</hookCode>")
           (set_hookType (str "custom") (set_code (str "contract A{}") emptyObject)));
    [vm_compute; reflexivity | reflexivity |].
  intros type Hin. simpl in Hin.
  repeat (destruct Hin as [<-|Hin]; [vm_compute; reflexivity|]). contradiction.
Defined.

(* ================================================================== *)
(** ** Tags and their fields *)
(* ================================================================== *)

Section Regions.

Lemma occursAt_nth p s j k x :
  occursAt p s j -> nth_error p k = Some x -> nth_error s (j + k) = Some x.
Proof.
  unfold occursAt. intros H Hk.
  apply startsWith_split in H as [r Hr].
  rewrite <- nth_error_skipn, Hr, nth_error_app1; [exact Hk|].
  apply nth_error_Some. congruence.
Qed.

Lemma occursAt_app_l p s x j :
  occursAt p (s ++ x) j -> j + length p <= length s -> occursAt p s j.
Proof.
  unfold occursAt. intros H Hj.
  rewrite skipn_app_le in H by lia.
  apply startsWith_app_inv in H; [exact H|]. rewrite length_skipn. lia.
Qed.

Lemma occursAt_app_r p a b j :
  occursAt p (a ++ b) j -> length a <= j -> occursAt p b (j - length a).
Proof.
  unfold occursAt. intros H Hj.
  rewrite skipn_app in H. rewrite skipn_all2 in H by lia. exact H.
Qed.

(** A completed region is an opening tag and a closing tag after it. *)
Lemma firstRegion_occurs open close s content rest :
  firstRegion open close s = Some (content, rest) ->
  exists i j, occursAt open s i /\ occursAt close s j /\ i + length open <= j.
Proof.
  unfold firstRegion.
  destruct (cut open s) as [[b a]|] eqn:C; [|discriminate]. intros C'.
  exists (length b), (length content + (length b + length open)).
  split; [now apply cut_occurs in C|]. split; [|lia].
  apply cut_occurs in C'. rewrite (cut_after _ _ _ _ C) in C'.
  now apply occursAt_skipn in C'.
Qed.

Lemma firstRegion_complete open close s i j :
  occursAt open s i -> occursAt close s j -> i + length open <= j ->
  firstRegion open close s <> None.
Proof.
  intros Ho Hc Hij. unfold firstRegion.
  destruct (cut_complete _ _ _ Ho) as [b [a [C Hb]]]. rewrite C.
  rewrite (cut_after _ _ _ _ C).
  assert (O : occursAt close (skipn (length b + length open) s)
                (j - (length b + length open))).
  { apply occursAt_skipn.
    replace (j - (length b + length open) + (length b + length open)) with j
      by lia. exact Hc. }
  destruct (cut_complete _ _ _ O) as [b' [a' [C' _]]]. rewrite C'. discriminate.
Qed.

Lemma tail_not_lt p k x :
  forallb (fun x => negb (Ascii.eqb x "<")) (tl p) = true ->
  nth_error p (S k) = Some x -> x <> "<"%char.
Proof.
  intros H Hk. rewrite nth_error_S in Hk.
  rewrite forallb_forall in H. apply nth_error_In in Hk. apply H in Hk.
  intros ->. discriminate.
Qed.

(** An opening tag followed by a text without the closing tag does not
    complete a region, and neither does it complete one with what comes
    before it. *)
Lemma unterminated_region open close before partial :
  properTags open close = true ->
  firstRegion open close before = None ->
  (forall j, ~ occursAt close partial j) ->
  firstRegion open close (before ++ open ++ partial) = None.
Proof.
  intros Hp Hbefore Hpartial.
  destruct (firstRegion open close (before ++ open ++ partial))
    as [[content rest]|] eqn:F; [exfalso | reflexivity].
  destruct (firstRegion_occurs _ _ _ _ _ F) as [i [j [Ho [Hc Hij]]]].
  unfold properTags in Hp.
  destruct open as [|o0 [|o1 open']]; try discriminate.
  destruct close as [|c0 [|c1 close']]; try discriminate.
  rewrite !andb_true_iff in Hp.
  destruct Hp as [[[[[Ho0 Ho1] Hot] Hc0] Hc1] Hct].
  apply Ascii.eqb_eq in Ho0, Hc0, Hc1. subst o0 c0 c1.
  apply negb_true_iff, Ascii.eqb_neq in Ho1.
  set (open := "<"%char :: o1 :: open') in *.
  set (close := "<"%char :: "/"%char :: close') in *.
  assert (Hat : forall k, k < length open ->
            nth_error (before ++ open ++ partial) (length before + k)
            = nth_error open k).
  { intros k Hk. rewrite nth_error_app2 by lia.
    replace (length before + k - length before) with k by lia.
    now apply nth_error_app1. }
  assert (Hlen : j + length close <= length (before ++ open ++ partial)).
  { apply occursAt_bound; [discriminate | exact Hc]. }
  destruct (le_lt_dec (length before + length open) j) as [Hafter|Hin].
  - (* the closing tag lies in the partial text *)
    apply (Hpartial (j - length before - length open)).
    apply (occursAt_app_r _ before) in Hc; [|lia].
    apply (occursAt_app_r _ open) in Hc; [exact Hc | lia].
  - destruct (le_lt_dec (j + length close) (length before)) as [Hbef|Hover].
    + (* the region lies in what comes before *)
      apply (firstRegion_complete open close before i j); [| |exact Hij|exact Hbefore].
      * apply (occursAt_app_l _ _ _ _ Ho). lia.
      * apply (occursAt_app_l _ _ _ _ Hc). lia.
    + (* the closing tag would overlap the opening tag *)
      destruct (lt_eq_lt_dec j (length before)) as [[Hlt|Heq]|Hgt].
      * destruct (nth_error close (length before - j)) as [x|] eqn:N.
        2:{ apply nth_error_None in N. lia. }
        pose proof (occursAt_nth _ _ _ _ _ Hc N) as H1.
        replace (j + (length before - j)) with (length before + 0) in H1 by lia.
        rewrite Hat in H1 by (simpl; lia). simpl in H1. injection H1 as <-.
        destruct (length before - j) as [|k] eqn:K; [lia|].
        now apply (tail_not_lt close k "<"%char Hct N).
      * pose proof (occursAt_nth close _ j 1 "/"%char Hc eq_refl) as H1.
        rewrite Heq, Hat in H1 by (simpl; lia). simpl in H1. congruence.
      * pose proof (occursAt_nth close _ j 0 "<"%char Hc eq_refl) as H1.
        replace (j + 0) with (length before + (j - length before)) in H1 by lia.
        rewrite Hat in H1 by lia.
        destruct (j - length before) as [|k] eqn:K; [lia|].
        now apply (tail_not_lt open k "<"%char Hot H1).
Qed.

Lemma properTags_fieldTag t : properTags (openTag t) (closeTag t) = true.
Proof. destruct t; reflexivity. Qed.

Lemma execAll_no_match re s :
  search re s = None -> execAll re s = [].
Proof. unfold execAll. simpl. now intros ->. Qed.

(** The field of a tag without a completed region is not extracted. *)
Lemma fieldIsSet_no_region t content :
  firstRegion (openTag t) (closeTag t) content = None ->
  fieldIsSet t (orEmpty (extractTagsFromContent content)) = false.
Proof.
  intros H. rewrite extractTagsFromContent_fields.
  destruct (foundAnyData content); [|now destruct t].
  assert (C : captured (tag (tagName t)) content = None)
    by (apply captured_None; exact H).
  assert (E : t = ExampleTag -> execAll (tag "example") content = []).
  { intros ->. apply execAll_no_match. rewrite search_tag. exact H. }
  destruct t; cbn [tagName] in C; unfold fieldIsSet, extracted;
    cbn [orEmpty name description code gasEstimate testCode examples
         _replyContent];
    rewrite ?isSet_option_map; try (now rewrite C).
  now rewrite E.
Qed.

Lemma getFinalData_fieldIsSet t this :
  fieldIsSet t (lastParsedData this) = false ->
  fieldIsSet t (getFinalData this) = false.
Proof.
  unfold getFinalData.
  destruct (truthyField (_rawContent (lastParsedData this)));
    destruct (truthyField (_replyContent _)); destruct t; simpl; auto.
Qed.

End Regions.


(** Whatever comes before it, an unterminated tag adds nothing: the
    content captured for the tag is the one captured from what comes
    before. *)
Lemma unterminated_tail_adds_nothing (t : fieldTag) (before partial : jsstring) :
  (forall j, ~ occursAt (closeTag t) partial j) ->
  captured (tag (tagName t)) (before ++ openTag t ++ partial)
  = captured (tag (tagName t)) before.
Proof.
  intros Hpartial.
  destruct (firstRegion (openTag t) (closeTag t) before) as [[content rest]|] eqn:F.
  - rewrite (captured_firstRegion _ _ _ _ F).
    apply (firstRegion_app _ _ _ (openTag t ++ partial)) in F.
    now rewrite (captured_firstRegion _ _ _ _ F).
  - rewrite (captured_None _ _ F). apply captured_None.
    apply unterminated_region;
      [apply properTags_fieldTag | exact F | exact Hpartial].
Qed.

Lemma no_occurrence_by_cut p s : cut p s = None -> forall j, ~ occursAt p s j.
Proof. intros H j. now apply cut_None. Qed.


(* ================================================================== *)
(** ** Empty regions *)
(* ================================================================== *)

Section EmptyRegions.

Lemma mismatch_startsWith p u x :
  mismatch p u = true -> startsWith (u ++ x) p = false.
Proof.
  revert u; induction p as [|a p IH]; intros [|b u]; simpl; try discriminate.
  destruct (Ascii.eqb a b); [apply IH | reflexivity].
Qed.

Lemma cut_skip p w s :
  startsNowhere p w = true ->
  cut p (w ++ s) =
  match cut p s with
  | Some (before, after) => Some (w ++ before, after)
  | None => None
  end.
Proof.
  induction w as [|c w IH]; simpl.
  - intros _. destruct (cut p s) as [[b a]|]; reflexivity.
  - rewrite andb_true_iff. intros [Hm Hw].
    change (c :: w ++ s) with ((c :: w) ++ s).
    rewrite (mismatch_startsWith _ _ s Hm). simpl. rewrite (IH Hw).
    destruct (cut p s) as [[b a]|]; reflexivity.
Qed.

Lemma cut_skip_None p w s :
  startsNowhere p w = true -> cut p s = None -> cut p (w ++ s) = None.
Proof. intros Hw Hs. now rewrite cut_skip, Hs. Qed.

Lemma firstRegion_skip open close w s :
  startsNowhere open w = true ->
  firstRegion open close (w ++ s) = firstRegion open close s.
Proof.
  intros Hw. unfold firstRegion. rewrite (cut_skip _ _ _ Hw).
  destruct (cut open s) as [[b a]|]; reflexivity.
Qed.

Lemma fieldTag_eq_dec (t u : fieldTag) : {t = u} + {t <> u}.
Proof. decide equality. Qed.

Lemma firstRegion_emptyRegion_same t s :
  firstRegion (openTag t) (closeTag t) (emptyRegion t ++ s) = Some ([], s).
Proof. destruct t; reflexivity. Qed.

Lemma firstRegion_emptyRegion_other t u s :
  t <> u ->
  firstRegion (openTag t) (closeTag t) (emptyRegion u ++ s)
  = firstRegion (openTag t) (closeTag t) s.
Proof.
  intros Hne. apply firstRegion_skip.
  destruct t, u; try contradiction; vm_compute; reflexivity.
Qed.

(** In a content made of empty regions, the first completed region of
    a tag, if any, is empty. *)
Lemma firstRegion_emptyRegions t ts :
  match firstRegion (openTag t) (closeTag t) (concat (map emptyRegion ts)) with
  | Some (content, _) => content = []
  | None => True
  end.
Proof.
  induction ts as [|u ts IH]; cbn [map concat].
  - now destruct t.
  - destruct (fieldTag_eq_dec t u) as [<-|Hne].
    + now rewrite firstRegion_emptyRegion_same.
    + now rewrite firstRegion_emptyRegion_other.
Qed.

Lemma captured_emptyRegions t ts :
  captured (tag (tagName t)) (concat (map emptyRegion ts)) = None.
Proof.
  pose proof (firstRegion_emptyRegions t ts) as H.
  destruct (firstRegion (openTag t) (closeTag t) (concat (map emptyRegion ts)))
    as [[content rest]|] eqn:F.
  - subst content. now rewrite (captured_firstRegion _ _ _ _ F).
  - now apply captured_None.
Qed.

Lemma toLowerCase_emptyRegions ts :
  toLowerCase (concat (map emptyRegion ts))
  = concat (map (fun t => toLowerCase (emptyRegion t)) ts).
Proof.
  induction ts as [|u ts IH]; cbn [map concat]; [reflexivity|].
  now rewrite toLowerCase_app, IH.
Qed.

(** Neither [complexity] nor a hook-type phrase occurs in it, in any
    case of the letters. *)
Lemma lowerCasePatterns_emptyRegions p ts :
  In p lowerCasePatterns ->
  cut p (toLowerCase (concat (map emptyRegion ts))) = None.
Proof.
  intros Hp. rewrite toLowerCase_emptyRegions.
  induction ts as [|u ts IH]; cbn [map concat].
  - simpl in Hp.
    repeat (destruct Hp as [<-|Hp]; [reflexivity|]). contradiction.
  - apply cut_skip_None; [|exact IH].
    simpl in Hp.
    repeat (destruct Hp as [<-|Hp]; [destruct u; vm_compute; reflexivity|]).
    contradiction.
Qed.

Lemma feature_emptyRegions ts :
  cut (str "<feature>") (concat (map emptyRegion ts)) = None.
Proof.
  induction ts as [|u ts IH]; cbn [map concat]; [reflexivity|].
  apply cut_skip_None; [|exact IH]. destruct u; vm_compute; reflexivity.
Qed.

Lemma search_lit_None {R} p (k : @cont R) s :
  cut p s = None -> search (lit p k) s = None.
Proof.
  unfold search. induction s as [|c s IH]; simpl; unfold lit.
  - destruct (startsWith [] p); [discriminate | reflexivity].
  - destruct (startsWith (c :: s) p); [discriminate|].
    destruct (cut p s) as [[b a]|]; [discriminate|]. intros _. now apply IH.
Qed.

(** Every [<example>] region found in it is empty. *)
Lemma examples_emptyRegions ts n captures :
  execLoop n (tag "example") (concat (map emptyRegion ts)) = Some captures ->
  filter truthy captures = [].
Proof.
  revert n captures; induction ts as [|u ts IH]; intros n l.
  - destruct n as [|n]; [discriminate|]. vm_compute. now intros [= <-].
  - destruct n as [|n]; [discriminate|].
    cbn [map concat execLoop]. rewrite search_tag.
    change (str "<" ++ str "example" ++ str ">") with (openTag ExampleTag).
    change (str "</" ++ str "example" ++ str ">") with (closeTag ExampleTag).
    destruct (fieldTag_eq_dec ExampleTag u) as [<-|Hne].
    + rewrite firstRegion_emptyRegion_same.
      destruct (execLoop n (tag "example") (concat (map emptyRegion ts)))
        as [l'|] eqn:E; [|discriminate].
      intros [= <-]. simpl. now apply (IH n).
    + rewrite (firstRegion_emptyRegion_other _ _ _ Hne).
      intros H. apply (IH (S n)). cbn [execLoop]. rewrite search_tag. exact H.
Qed.

Lemma execAll_emptyRegions ts :
  execAll (tag "example") (concat (map emptyRegion ts)) = [].
Proof.
  unfold execAll.
  destruct (execLoop (S (length (concat (map emptyRegion ts)))) (tag "example")
              (concat (map emptyRegion ts))) as [l|] eqn:E; [|reflexivity].
  now rewrite (examples_emptyRegions _ _ _ E).
Qed.

Lemma foundAnyData_emptyRegions ts :
  foundAnyData (concat (map emptyRegion ts)) = false.
Proof.
  unfold foundAnyData, structuredFound.
  rewrite (captured_emptyRegions NameTag), (captured_emptyRegions DescriptionTag),
    (captured_emptyRegions HookCodeTag), (captured_emptyRegions GasEstimateTag),
    (captured_emptyRegions TestCodeTag), (captured_emptyRegions ReplyTag).
  rewrite execAll_emptyRegions.
  rewrite (execAll_no_match featureRegex).
  2:{ apply search_lit_None, feature_emptyRegions. }
  assert (C : captured complexityRegex
                (toLowerCase (concat (map emptyRegion ts))) = None).
  { unfold captured, matchGroup1, complexityRegex.
    rewrite search_lit_None; [reflexivity|].
    apply lowerCasePatterns_emptyRegions. now left. }
  rewrite C.
  rewrite phraseFound_None; [reflexivity|].
  intros type Hin. rewrite includes_cut, clamp_0. simpl.
  rewrite lowerCasePatterns_emptyRegions; [reflexivity | now right].
Qed.

Lemma fieldIsSet_truthy t content group1 rest :
  t <> ExampleTag ->
  firstRegion (openTag t) (closeTag t) content = Some (group1, rest) ->
  fieldIsSet t (orEmpty (extractTagsFromContent content)) = truthy group1.
Proof.
  intros Hne Hregion.
  pose proof (captured_firstRegion (tagName t) _ _ _ Hregion) as C.
  rewrite extractTagsFromContent_fields.
  destruct (truthy group1) eqn:T.
  - assert (F : foundAnyData content = true).
    { unfold foundAnyData, structuredFound.
      destruct t; try contradiction; cbn [tagName] in C; rewrite C; simpl;
        now rewrite ?orb_true_r. }
    rewrite F.
    destruct t; try contradiction; cbn [tagName] in C; unfold fieldIsSet, extracted;
      cbn [orEmpty name description code gasEstimate testCode _replyContent];
      rewrite ?isSet_option_map; now rewrite C.
  - destruct (foundAnyData content); [|now destruct t].
    destruct t; try contradiction; cbn [tagName] in C; unfold fieldIsSet, extracted;
      cbn [orEmpty name description code gasEstimate testCode _replyContent];
      rewrite ?isSet_option_map; now rewrite C.
Qed.

End EmptyRegions.




(* ================================================================== *)
(** ** The tag buffer of the chat component *)
(* ================================================================== *)

Section Buffer.

Lemma clamp_inside s n : n <= length s -> clamp s (Z.of_nat n) = n.
Proof. unfold clamp. lia. Qed.

Lemma indexOf_first s p before after :
  cut p s = Some (before, after) -> indexOf s p 0 = Z.of_nat (length before).
Proof.
  intros C. rewrite indexOf_cut, clamp_0. simpl. now rewrite C.
Qed.

Lemma splitRegion_firstRegion open close s :
  firstRegion open close s =
  option_map (fun r => (snd (fst r), snd r)) (splitRegion open close s).
Proof.
  unfold firstRegion, splitRegion.
  destruct (cut open s) as [[b a]|]; [|reflexivity].
  destruct (cut close a) as [[c r]|]; reflexivity.
Qed.

(** The guards of [appendTagContentToReply] and [extractHookCode]
    hold exactly when the buffer has a completed region; the content
    they take and the buffer they leave are those of [splitRegion]. *)
Lemma guards_no_open open s :
  cut open s = None -> includes s open 0 = false.
Proof. intros C. rewrite includes_cut, clamp_0. simpl. now rewrite C. Qed.

Lemma guards_open open close s before afterOpen :
  cut open s = Some (before, afterOpen) ->
  includes s open 0 = true
  /\ includes s close (indexOf s open 0 + Z.of_nat (length open))
     = isSet (cut close afterOpen).
Proof.
  intros C. split.
  - rewrite includes_cut, clamp_0. simpl. now rewrite C.
  - rewrite (indexOf_first _ _ _ _ C), includes_cut, <- Nat2Z.inj_add.
    pose proof (cut_split _ _ _ _ C) as Hs.
    rewrite clamp_inside by (subst s; rewrite !length_app; lia).
    now rewrite <- (cut_after _ _ _ _ C).
Qed.

Lemma guards_region open close s before content after :
  splitRegion open close s = Some (before, content, after) ->
  substring s (indexOf s open 0 + Z.of_nat (length open))
    (indexOf s close (indexOf s open 0 + Z.of_nat (length open))) = content
  /\ Chat.removeRegion s open close
       (indexOf s close (indexOf s open 0 + Z.of_nat (length open)))
     = before ++ after.
Proof.
  unfold splitRegion.
  destruct (cut open s) as [[b a]|] eqn:C; [|discriminate].
  destruct (cut close a) as [[c r]|] eqn:C'; [|discriminate].
  intros [= <- <- <-].
  set (startIdx := (indexOf s open 0 + Z.of_nat (length open))%Z).
  set (endIdx := indexOf s close startIdx).
  pose proof (cut_split _ _ _ _ C) as Hs.
  pose proof (cut_split _ _ _ _ C') as Ha.
  pose proof (cut_after _ _ _ _ C) as Hskip.
  assert (Hlen : length s
                 = length b + length open + length c + length close + length r).
  { rewrite Hs, Ha, !length_app. lia. }
  assert (Hstart : startIdx = Z.of_nat (length b + length open)).
  { unfold startIdx. rewrite (indexOf_first _ _ _ _ C). lia. }
  assert (Hend : endIdx = Z.of_nat (length b + length open + length c)).
  { unfold endIdx. rewrite Hstart, indexOf_cut, clamp_inside by lia.
    rewrite <- Hskip, C'. reflexivity. }
  split.
  - unfold substring. rewrite Hstart, Hend, !clamp_inside by lia.
    rewrite Nat.min_l, Nat.max_r by lia.
    rewrite <- Hskip, Ha.
    replace (length b + length open + length c - (length b + length open))
      with (length c) by lia.
    rewrite firstn_app, firstn_all, Nat.sub_diag. simpl. apply app_nil_r.
  - unfold Chat.removeRegion, substringFrom, substring.
    rewrite (indexOf_first _ _ _ _ C), Hend.
    rewrite clamp_0, <- Nat2Z.inj_add, !clamp_inside by lia.
    rewrite Nat.min_l, Nat.max_r by lia.
    rewrite Nat.min_l, Nat.max_r by lia.
    rewrite Nat.sub_0_r. simpl skipn at 1. f_equal.
    + rewrite Hs, firstn_app, firstn_all, Nat.sub_diag. simpl. apply app_nil_r.
    + rewrite firstn_all2 by (rewrite length_skipn; lia).
      replace (length b + length open + length c + length close)
        with ((length c + length close) + (length b + length open)) by lia.
      rewrite <- skipn_skipn, <- Hskip, Ha.
      rewrite app_assoc, skipn_app, skipn_all2 by (rewrite length_app; lia).
      rewrite length_app, Nat.sub_diag. reflexivity.
Qed.

Lemma splitRegion_shorter open close s before content after :
  open <> [] ->
  splitRegion open close s = Some (before, content, after) ->
  length (before ++ after) < length s.
Proof.
  unfold splitRegion. intros Ho.
  destruct (cut open s) as [[b a]|] eqn:C; [|discriminate].
  destruct (cut close a) as [[c r]|] eqn:C'; [|discriminate].
  intros [= <- <- <-].
  apply cut_split in C, C'. subst s a. rewrite !length_app.
  destruct open; [contradiction | simpl; lia].
Qed.

Lemma includes_region_firstRegion open close s content :
  open <> [] ->
  includes s (open ++ content ++ close) 0 = true ->
  firstRegion open close s <> None.
Proof.
  intros Ho. rewrite includes_cut, clamp_0. simpl.
  destruct (cut (open ++ content ++ close) s) as [[b a]|] eqn:C; [|discriminate].
  intros _. apply cut_split in C.
  apply (firstRegion_complete open close s (length b)
           (length b + length open + length content)); [| |lia].
  - unfold occursAt. subst s.
    rewrite skipn_app, skipn_all, Nat.sub_diag. simpl.
    apply startsWith_split. exists (content ++ close ++ a).
    now rewrite <- !app_assoc.
  - unfold occursAt. subst s.
    replace (b ++ (open ++ content ++ close) ++ a)
      with ((b ++ open ++ content) ++ close ++ a)
      by now rewrite <- !app_assoc.
    rewrite skipn_app, skipn_all2 by (rewrite !length_app; lia).
    rewrite !length_app.
    replace (length b + length open + length content
             - (length b + (length open + length content))) with 0 by lia.
    simpl. apply startsWith_split. now exists a.
Qed.

Variable Env : Type.
Variable onReplyReceived : jsstring -> Env -> Env.

(** One call of [appendTagContentToReply], by the first completed
    region of the buffer. *)
Lemma appendTagContentToReply_region
    (rec : Chat.world Env -> option (Chat.world Env)) open close prefix c
    (env : Env) :
  Chat.appendTagContentToReply rec open close prefix (c, env) =
  match splitRegion open close (Chat.bufferRef c) with
  | Some (before, content, after) =>
      let content := trim content in
      let c :=
        if truthy content then
          let c := Chat.set_accumulatedReplyRef
                     (Chat.accumulatedReplyRef c ++ prefix ++ content) c in
          Chat.set_parsedContent
            (Chat.mkParsed (Chat.accumulatedReplyRef c)
               (Chat.hookCode (Chat.parsedContent c))) c
        else c in
      rec (Chat.set_bufferRef (before ++ after) c, env)
  | None => Some (c, env)
  end.
Proof.
  unfold Chat.appendTagContentToReply.
  destruct (splitRegion open close (Chat.bufferRef c)) as [[[b ct] r]|] eqn:S.
  - destruct (guards_region _ _ _ _ _ _ S) as [Hc Hr].
    unfold splitRegion in S.
    destruct (cut open (Chat.bufferRef c)) as [[b' a]|] eqn:C; [|discriminate].
    destruct (guards_open open close _ _ _ C) as [G1 G2].
    rewrite G1, G2.
    destruct (cut close a) as [[c' r']|]; [|discriminate].
    simpl isSet. cbv iota. rewrite Hc, Hr. reflexivity.
  - unfold splitRegion in S.
    destruct (cut open (Chat.bufferRef c)) as [[b' a]|] eqn:C.
    + destruct (guards_open open close _ _ _ C) as [G1 G2].
      rewrite G1, G2.
      destruct (cut close a) as [[c' r']|]; [discriminate | reflexivity].
    + now rewrite (guards_no_open open _ C).
Qed.

Lemma extractHookCode_region
    (rec : Chat.world Env -> option (Chat.world Env)) open close c (env : Env) :
  Chat.extractHookCode onReplyReceived rec open close (c, env) =
  match splitRegion open close (Chat.bufferRef c) with
  | Some (before, content, after) =>
      let content := trim content in
      let '(c, env) :=
        if truthy content then
          (Chat.set_parsedContent
             (Chat.mkParsed (Chat.reply (Chat.parsedContent c)) content) c,
           onReplyReceived (str "<hookCode>" ++ content ++ str "</hookCode>") env)
        else (c, env) in
      rec (Chat.set_bufferRef (before ++ after) c, env)
  | None => Some (c, env)
  end.
Proof.
  unfold Chat.extractHookCode.
  destruct (splitRegion open close (Chat.bufferRef c)) as [[[b ct] r]|] eqn:S.
  - destruct (guards_region _ _ _ _ _ _ S) as [Hc Hr].
    unfold splitRegion in S.
    destruct (cut open (Chat.bufferRef c)) as [[b' a]|] eqn:C; [|discriminate].
    destruct (guards_open open close _ _ _ C) as [G1 G2].
    rewrite G1, G2.
    destruct (cut close a) as [[c' r']|]; [|discriminate].
    simpl isSet. cbv iota. rewrite Hc, Hr. reflexivity.
  - unfold splitRegion in S.
    destruct (cut open (Chat.bufferRef c)) as [[b' a]|] eqn:C.
    + destruct (guards_open open close _ _ _ C) as [G1 G2].
      rewrite G1, G2.
      destruct (cut close a) as [[c' r']|]; [discriminate | reflexivity].
    + now rewrite (guards_no_open open _ C).
Qed.

Lemma splitRegion_None open close s :
  splitRegion open close s = None <-> firstRegion open close s = None.
Proof.
  rewrite splitRegion_firstRegion.
  destruct (splitRegion open close s); simpl; split; congruence.
Qed.

(** With fuel beyond the length of the buffer, [processBuffer] returns,
    and the buffer it leaves has no completed [<reply>] region and no
    completed [<hookCode>] region, and is not longer than before. *)
Lemma processBuffer_drains fuel c (env : Env) :
  length (Chat.bufferRef c) < fuel ->
  exists c' env',
    Chat.processBuffer onReplyReceived fuel (c, env) = Some (c', env')
    /\ firstRegion (str "<reply>") (str "</reply>") (Chat.bufferRef c') = None
    /\ firstRegion (str "<hookCode>") (str "</hookCode>") (Chat.bufferRef c') = None
    /\ length (Chat.bufferRef c') <= length (Chat.bufferRef c).
Proof.
  revert c env; induction fuel as [|n IH]; intros c env Hlen; [lia|].
  cbn [Chat.processBuffer]. rewrite appendTagContentToReply_region.
  destruct (splitRegion (str "<reply>") (str "</reply>") (Chat.bufferRef c))
    as [[[b ct] r]|] eqn:S.
  - (* a reply region: removed, and the rest is done by the call *)
    assert (Hs : length (b ++ r) < length (Chat.bufferRef c))
      by (eapply splitRegion_shorter; [|exact S]; discriminate).
    cbv zeta.
    match goal with
    | |- context [Chat.processBuffer _ n (Chat.set_bufferRef _ ?x, env)] =>
        destruct (IH (Chat.set_bufferRef (b ++ r) x) env) as [c1 [env1 [P [R [H L]]]]]
    end.
    { simpl. lia. }
    rewrite P. rewrite extractHookCode_region.
    apply splitRegion_None in H. rewrite H.
    exists c1, env1. apply splitRegion_None in H.
    repeat split; try assumption. simpl in L. lia.
  - apply splitRegion_None in S.
    rewrite extractHookCode_region.
    destruct (splitRegion (str "<hookCode>") (str "</hookCode>") (Chat.bufferRef c))
      as [[[b ct] r]|] eqn:S'.
    + assert (Hs : length (b ++ r) < length (Chat.bufferRef c))
        by (eapply splitRegion_shorter; [|exact S']; discriminate).
      cbv zeta.
      destruct (truthy (trim ct)).
      * match goal with
        | |- context [Chat.processBuffer _ n (Chat.set_bufferRef _ ?x, ?e)] =>
            destruct (IH (Chat.set_bufferRef (b ++ r) x) e) as [c1 [env1 [P [R [H L]]]]]
        end.
        { simpl. lia. }
        exists c1, env1. repeat split; try assumption. simpl in L. lia.
      * destruct (IH (Chat.set_bufferRef (b ++ r) c) env) as [c1 [env1 [P [R [H L]]]]].
        { simpl. lia. }
        exists c1, env1. repeat split; try assumption. simpl in L. lia.
    + apply splitRegion_None in S'.
      exists c, env. repeat split; try assumption. lia.
Qed.

End Buffer.

(* ================================================================== *)
(** ** The markup removed from the streaming reply *)
(* ================================================================== *)

Section Markup.

Lemma done_shrinking capture : shrinking (done capture).
Proof. intros s c r [= _ <-]. lia. Qed.

Lemma lit_shrinking p k : shrinking k -> shrinking (lit p k).
Proof.
  intros Hk s c r. unfold lit. destruct (startsWith s p); [|discriminate].
  intros H. apply Hk in H. rewrite length_skipn in H. lia.
Qed.

Lemma lit_consumes p k s capture rest :
  p <> [] -> shrinking k ->
  lit p k s = Some (capture, rest) -> length rest < length s.
Proof.
  intros Hp Hk. unfold lit. destruct (startsWith s p) eqn:E; [|discriminate].
  intros H. apply Hk in H. rewrite length_skipn in H.
  apply startsWith_length in E. destruct p; [contradiction | simpl in *; lia].
Qed.

Lemma greedyClass_shrinking cls k : shrinking k -> shrinking (greedyClass cls k).
Proof.
  intros Hk s. induction s as [|a s IH]; intros c r; simpl.
  - apply Hk.
  - destruct (cls a); [|apply Hk].
    destruct (greedyClass cls k s) as [[c' r']|] eqn:G.
    + intros [= <- <-]. specialize (IH _ _ eq_refl). simpl. lia.
    + apply Hk.
Qed.

Lemma greedyPlus_shrinking cls k : shrinking k -> shrinking (greedyPlus cls k).
Proof.
  intros Hk s c r. unfold greedyPlus. destruct s as [|a s]; [discriminate|].
  destruct (cls a); [|discriminate].
  intros H. apply (greedyClass_shrinking cls k Hk) in H. simpl. lia.
Qed.

Lemma optional_shrinking p k : shrinking k -> shrinking (optional p k).
Proof.
  intros Hk s c r. unfold optional.
  destruct (lit p k s) as [[c' r']|] eqn:L.
  - intros [= <- <-]. now apply (lit_shrinking p k Hk) in L.
  - apply Hk.
Qed.

Lemma markupRegex_consumes s capture rest :
  markupRegex s = Some (capture, rest) -> length rest < length s.
Proof.
  apply lit_consumes; [discriminate|].
  apply optional_shrinking, greedyPlus_shrinking, lit_shrinking, done_shrinking.
Qed.

Lemma searchSplit_consumes (re : @cont matched) s before capture rest :
  (forall s capture rest, re s = Some (capture, rest) -> length rest < length s) ->
  searchSplit re s = Some (before, (capture, rest)) -> length rest < length s.
Proof.
  intros Hre. unfold searchSplit. generalize (@nil ascii) as acc.
  induction s as [|a s IH]; intros acc.
  - destruct (re []) as [[c r]|] eqn:E; [|discriminate].
    intros [= _ <- <-]. now apply Hre in E.
  - destruct (re (a :: s)) as [[c r]|] eqn:E.
    + intros [= _ <- <-]. now apply Hre in E.
    + intros H. apply IH in H. simpl. lia.
Qed.

(** Enough fuel gives the cleaned text. *)
Lemma removeLoop_total fuel s :
  length s < fuel -> exists cleaned, removeLoop fuel markupRegex s = Some cleaned.
Proof.
  revert s; induction fuel as [|n IH]; intros s Hlen; [lia|].
  simpl. destruct (searchSplit markupRegex s) as [[before [capture rest]]|] eqn:E.
  - apply (searchSplit_consumes _ _ _ _ _ markupRegex_consumes) in E.
    destruct (IH rest) as [cleaned Hc]; [lia|]. rewrite Hc. now eexists.
  - now eexists.
Qed.

End Markup.

(* ================================================================== *)
(** ** Ingestion by the chat component, and the error frame *)
(* ================================================================== *)

Lemma processTextWithTypingEffect_drains
    (Env : Type) (onReplyReceived : jsstring -> Env -> Env)
    (text : jsstring) (c : Chat.Component) (env : Env) :
  exists c' env',
    Chat.processTextWithTypingEffect onReplyReceived text (c, env)
    = Some (c', env')
    /\ firstRegion (str "<reply>") (str "</reply>") (Chat.bufferRef c') = None
    /\ firstRegion (str "<hookCode>") (str "</hookCode>") (Chat.bufferRef c') = None
    /\ length (Chat.bufferRef c') <= length (Chat.bufferRef c ++ text).
Proof.
  unfold Chat.processTextWithTypingEffect.
  destruct (processBuffer_drains Env onReplyReceived
              (S (length (Chat.bufferRef (Chat.set_bufferRef (Chat.bufferRef c ++ text) c))))
              (Chat.set_bufferRef (Chat.bufferRef c ++ text) c) env)
    as [c1 [env1 [P [R [H L]]]]]; [lia|].
  rewrite P.
  destruct (removeLoop_total (S (length text)) text) as [cleaned Hc]; [lia|].
  rewrite Hc. eexists. eexists. split; [reflexivity|].
  simpl. repeat split; assumption.
Qed.

(** C3, as the code has it.  The chat component consumes: after it has
    ingested a text, its buffer holds no completed [<reply>] region and
    no completed [<hookCode>] region (every such region was removed,
    opening tag through closing tag, and the buffer scanned again), so
    the text of no such region is left in it.  [JsonStreamHandler]
    does not consume: its raw content only grows, by each fragment. *)
Theorem regions_consumed_by_the_chat_buffer :
  (forall (Env : Type) (onReplyReceived : jsstring -> Env -> Env)
          (text : jsstring) (c : Chat.Component) (env : Env),
      exists c' env',
        Chat.processTextWithTypingEffect onReplyReceived text (c, env)
        = Some (c', env')
        /\ firstRegion (str "<reply>") (str "</reply>") (Chat.bufferRef c') = None
        /\ firstRegion (str "<hookCode>") (str "</hookCode>") (Chat.bufferRef c')
           = None
        /\ (forall content,
               includes (Chat.bufferRef c')
                 (str "<reply>" ++ content ++ str "</reply>") 0 = false)
        /\ (forall content,
               includes (Chat.bufferRef c')
                 (str "<hookCode>" ++ content ++ str "</hookCode>") 0 = false))
  /\ (forall (this : JsonStreamHandler) (fragment : jsstring),
         rawContent (fst (processFragment this fragment))
         = rawContent this ++ fragment).
Proof.
  split; [|apply processFragment_rawContent].
  intros Env onReplyReceived text c env.
  destruct (processTextWithTypingEffect_drains Env onReplyReceived text c env)
    as [c' [env' [P [R [H _]]]]].
  exists c', env'. repeat split; try assumption.
  - intros content.
    destruct (includes (Chat.bufferRef c') _ 0) eqn:I; [|reflexivity].
    apply includes_region_firstRegion in I; [contradiction | discriminate].
  - intros content.
    destruct (includes (Chat.bufferRef c') _ 0) eqn:I; [|reflexivity].
    apply includes_region_firstRegion in I; [contradiction | discriminate].
Qed.

(** C3 fails on [JsonStreamHandler]: the region [<name>A</name>] is
    extracted and its text is still in the raw content afterwards. *)
Lemma extracted_region_stays_in_raw_content :
  name (lastParsedData (fst (processFragment StreamUtils.new (str "<name>A</name>"))))
  = Some (str "A")
  /\ includes
       (rawContent (fst (processFragment StreamUtils.new (str "<name>A</name>"))))
       (str "<name>A</name>") 0
     = true.
Proof. vm_compute. split; reflexivity. Qed.

(** The scenario of two tags split over three chunks. *)
Lemma reply_and_code_over_three_chunks :
  option_map
    (fun st => (Chat.accumulatedReplyRef (fst (fst st)),
                code (Page.streamingHookCode (snd (fst st)))))
    (Page.handleEvents
       [Chat.ChunkEvent (Chat.DataChunk (str "<reply>Hi"));
        Chat.ChunkEvent (Chat.DataChunk (str " there</reply><hookCode>contract A"));
        Chat.ChunkEvent (Chat.DataChunk (str "{}</hookCode>"))]
       ((Chat.initial, Page.initial), []))
  = Some (str "Hi there", Some (str "contract A{}")).
Proof. vm_compute. reflexivity. Qed.


(** The message is kept by the page only: the reset that follows in
    [handleStreamError] clears the component's own [streamError], and
    the buffer of tags not yet completed. *)
Lemma handleStreamError_resets_the_component
    (c : Chat.Component) (page : Page.State) (message : jsstring) :
  Chat.streamError (fst (Page.handleStreamError message (c, page))) = None
  /\ Chat.bufferRef (fst (Page.handleStreamError message (c, page))) = []
  /\ Chat.streamingReply (fst (Page.handleStreamError message (c, page))) = [].
Proof. repeat split; reflexivity. Qed.

(** A session that has a name, a code and a reply keeps them through an
    error frame. *)
Lemma error_after_fee_hook :
  option_map
    (fun st => (Chat.accumulatedReplyRef (fst (fst st)),
                name (Page.streamingHookCode (snd (fst st))),
                Page.error (snd (fst st))))
    (Page.handleEvents
       [Chat.ChunkEvent (Chat.DataChunk (str "<reply>Here it is</reply>"));
        Chat.ChunkEvent
          (Chat.DataChunk
             (str "<hookCode><name>Fee Hook</name> contract A{}</hookCode>"));
        Chat.ChunkEvent (Chat.ErrorChunk (str "connection lost"))]
       ((Chat.initial, Page.initial), []))
  = Some (str "Here it is", Some (str "Fee Hook"), Some (str "connection lost")).
Proof. vm_compute. reflexivity. Qed.

(* ================================================================== *)
(** ** More on [JsonStreamHandler] *)
(* ================================================================== *)

Section HandlerFacts.

Lemma isSet_false {A} (o : option A) : isSet o = false -> o = None.
Proof. destruct o; [discriminate | reflexivity]. Qed.

(** Nothing found: every field of the object under construction is
    absent. *)
Lemma extracted_nothing content :
  foundAnyData content = false -> extracted content = emptyObject.
Proof.
  unfold foundAnyData, structuredFound. intros H.
  repeat (apply orb_false_elim in H; destruct H as [H ?]).
  unfold extracted, emptyObject.
  repeat match goal with
         | E : isSet ?o = false |- _ => apply isSet_false in E; rewrite E
         end.
  assert (S : structuredFound content = false).
  { unfold structuredFound.
    repeat match goal with E : ?o = None |- _ => rewrite E; clear E end.
    reflexivity. }
  rewrite S. reflexivity.
Qed.

(** What [extractTagsFromContent] returns, [null] read as [{}]. *)
Lemma orEmpty_extract content :
  orEmpty (extractTagsFromContent content) = extracted content.
Proof.
  rewrite extractTagsFromContent_fields.
  destruct (foundAnyData content) eqn:F; [reflexivity|].
  simpl. symmetry. now apply extracted_nothing.
Qed.

(** The record of a session, by what was fed. *)
Lemma session_record fragments :
  lastParsedData (feed StreamUtils.new fragments) = extracted (concat fragments).
Proof. now rewrite feed_new, orEmpty_extract. Qed.

Lemma implb_orElse {A} (a b : option A) :
  implb (isSet a) (isSet (orElse b a)) = true.
Proof. destruct a, b; reflexivity. Qed.

Lemma keepsFields_spread a b : keepsFields a (spread a b) = true.
Proof.
  unfold keepsFields, presentFields, spread. cbn -[implb orElse isSet].
  now rewrite !implb_orElse.
Qed.

Lemma keepsFields_refl a : keepsFields a a = true.
Proof.
  unfold keepsFields, presentFields. cbn -[implb isSet].
  now rewrite !implb_same.
Qed.

End HandlerFacts.

(** X1: no fragment removes a field.  In every state of a handler,
    each field of the record that is present before [processFragment]
    is present after it, and the raw content keeps all it had. *)
Theorem processFragment_keeps_fields (this : JsonStreamHandler)
    (fragment : jsstring) :
  keepsFields (lastParsedData this)
    (lastParsedData (fst (processFragment this fragment))) = true
  /\ keyCount (lastParsedData this)
     <= keyCount (lastParsedData (fst (processFragment this fragment)))
  /\ firstn (length (rawContent this))
       (rawContent (fst (processFragment this fragment)))
     = rawContent this.
Proof.
  rewrite processFragment_lastParsedData, processFragment_rawContent.
  split; [|split].
  - destruct (extractTagsFromContent (rawContent this ++ fragment));
      [apply keepsFields_spread | apply keepsFields_refl].
  - destruct (extractTagsFromContent (rawContent this ++ fragment)) as [h|];
      [|lia].
    destruct (lastParsedData this) as [a1 a2 a3 a4 a5 a6 a7 a8 a9 a10 a11 a12 a13].
    destruct h as [b1 b2 b3 b4 b5 b6 b7 b8 b9 b10 b11 b12 b13].
    unfold keyCount, spread; cbn [name description code hookType gasEstimate
      complexity functionalities dependencies testCode examples version
      _rawContent _replyContent].
    assert (L : forall {A} (a b : option A),
               match a with Some _ => 1 | None => 0 end
               <= match orElse b a with Some _ => 1 | None => 0 end)
      by (intros A [?|] [?|]; simpl; lia).
    pose proof (L _ a1 b1). pose proof (L _ a2 b2). pose proof (L _ a3 b3).
    pose proof (L _ a4 b4). pose proof (L _ a5 b5). pose proof (L _ a6 b6).
    pose proof (L _ a7 b7). pose proof (L _ a8 b8). pose proof (L _ a9 b9).
    pose proof (L _ a10 b10). pose proof (L _ a11 b11). pose proof (L _ a12 b12).
    pose proof (L _ a13 b13). lia.
  - rewrite firstn_app, firstn_all, Nat.sub_diag. simpl. apply app_nil_r.
Qed.

Section SessionValues.

Lemma keepsValue_captured t s x (f : jsstring -> jsstring) :
  keepsValue (option_map f (captured (tag t) s))
             (option_map f (captured (tag t) (s ++ x))).
Proof.
  unfold keepsValue.
  destruct (captured (tag t) s) as [g|] eqn:C; simpl; [|exact I].
  now rewrite (captured_tag_app _ _ x _ C).
Qed.

Lemma keepsValue_number s x :
  keepsValue
    (option_map (fun m1 => parseInt (trim m1)) (captured (tag "gasEstimate") s))
    (option_map (fun m1 => parseInt (trim m1))
       (captured (tag "gasEstimate") (s ++ x))).
Proof.
  unfold keepsValue.
  destruct (captured (tag "gasEstimate") s) as [g|] eqn:C; simpl; [|exact I].
  now rewrite (captured_tag_app _ _ x _ C).
Qed.

Lemma growsAtEnd_execAll re s x :
  consuming re -> stable re ->
  growsAtEnd (nonEmpty (execAll re s)) (nonEmpty (execAll re (s ++ x))).
Proof.
  intros Hc Hs. destruct (execAll_app re Hc Hs s x) as [more ->].
  unfold growsAtEnd. destruct (execAll re s) as [|e l] eqn:E; simpl; [exact I|].
  now exists more.
Qed.

End SessionValues.

(** X2: within a session a scalar field keeps its first value.  Once
    the name, the description, the code, the gas estimate, the test
    code or the reply content is in the record, no later fragment
    changes it. *)
Theorem scalar_fields_keep_first_value (fragments later : list jsstring) :
  let earlier := lastParsedData (feed StreamUtils.new fragments) in
  let record := lastParsedData (feed StreamUtils.new (fragments ++ later)) in
  keepsValue (name earlier) (name record)
  /\ keepsValue (description earlier) (description record)
  /\ keepsValue (code earlier) (code record)
  /\ keepsValue (gasEstimate earlier) (gasEstimate record)
  /\ keepsValue (testCode earlier) (testCode record)
  /\ keepsValue (_replyContent earlier) (_replyContent record).
Proof.
  cbv zeta. rewrite !session_record, concat_app.
  unfold extracted; cbn [name description code gasEstimate testCode _replyContent].
  repeat split; try apply keepsValue_captured. apply keepsValue_number.
Qed.

(** X3: within a session the lists only grow at their end.  The
    examples and the functionalities of the record after later
    fragments start with the entries they had before. *)
Theorem list_fields_grow_at_end (fragments later : list jsstring) :
  let earlier := lastParsedData (feed StreamUtils.new fragments) in
  let record := lastParsedData (feed StreamUtils.new (fragments ++ later)) in
  growsAtEnd (examples earlier) (examples record)
  /\ growsAtEnd (functionalities earlier) (functionalities record).
Proof.
  cbv zeta. rewrite !session_record, concat_app.
  unfold extracted; cbn [examples functionalities]. split.
  - apply growsAtEnd_execAll; [apply tag_consuming | apply tag_stable].
  - apply growsAtEnd_execAll;
      [apply featureRegex_consuming | apply featureRegex_stable].
Qed.

(* ================================================================== *)
(** ** The values [extractTagsFromContent] assigns *)
(* ================================================================== *)

Section Trim.

Lemma trimStart_fixed s :
  match s with [] => True | c :: _ => isWhiteSpace c = false end ->
  trimStart s = s.
Proof. destruct s as [|c s]; simpl; [reflexivity|]. now intros ->. Qed.

Lemma trimStart_head s :
  match trimStart s with [] => True | c :: _ => isWhiteSpace c = false end.
Proof.
  induction s as [|c s IH]; simpl; [exact I|].
  destruct (isWhiteSpace c) eqn:E; [exact IH | exact E].
Qed.

Lemma trimStart_idempotent s : trimStart (trimStart s) = trimStart s.
Proof. apply trimStart_fixed, trimStart_head. Qed.

Lemma trimStart_snoc s c :
  isWhiteSpace c = false -> trimStart (s ++ [c]) = trimStart s ++ [c].
Proof.
  intros Hc. induction s as [|a s IH]; simpl.
  - now rewrite Hc.
  - destruct (isWhiteSpace a); [exact IH | reflexivity].
Qed.

Lemma trimEnd_cons c s :
  isWhiteSpace c = false -> trimEnd (c :: s) = c :: trimEnd s.
Proof.
  intros Hc. unfold trimEnd. simpl.
  rewrite trimStart_snoc by exact Hc. now rewrite rev_app_distr.
Qed.

Lemma trimEnd_idempotent s : trimEnd (trimEnd s) = trimEnd s.
Proof. unfold trimEnd. now rewrite rev_involutive, trimStart_idempotent. Qed.

(** [trim] leaves no white space at either end: trimming again
    changes nothing. *)
Lemma trim_trimmed s : trimmed (trim s).
Proof.
  unfold trimmed, trim.
  pose proof (trimStart_head s) as H.
  destruct (trimStart s) as [|c r] eqn:E.
  - reflexivity.
  - rewrite (trimEnd_cons _ _ H).
    rewrite (trimStart_fixed (c :: trimEnd r)) by exact H.
    rewrite (trimEnd_cons _ _ H). now rewrite trimEnd_idempotent.
Qed.

End Trim.

Section Values.

Lemma whenSet_option_map {A B} (P : B -> Prop) (f : A -> B) o :
  (forall a, P (f a)) -> whenSet P (option_map f o).
Proof. intros H. destruct o; simpl; [apply H | exact I]. Qed.

Lemma phraseFound_hookTypes content :
  whenSet (fun v => In v hookTypes) (phraseFound content).
Proof.
  unfold phraseFound.
  destruct (List.find _ hookTypes) as [type|] eqn:F; simpl; [|exact I].
  now apply find_some in F.
Qed.

Lemma captured_complexity_values content :
  whenSet (fun v => In v complexityValues) (captured complexityRegex content).
Proof.
  unfold captured, matchGroup1.
  destruct (search complexityRegex content) as [[c r]|] eqn:E; simpl; [|exact I].
  destruct (truthy c); simpl; [|exact I].
  now apply complexityRegex_group1 in E.
Qed.

Lemma execAll_trimmed re content : Forall trimmed (execAll re content).
Proof.
  unfold execAll. destruct (execLoop _ re content) as [l|]; [|constructor].
  apply Forall_map, Forall_forall. intros x _. apply trim_trimmed.
Qed.

Lemma whenSet_nonEmpty (P : list jsstring -> Prop) items :
  (items <> [] -> P items) -> whenSet P (nonEmpty items).
Proof. destruct items; simpl; [exact (fun _ => I) | intros H; now apply H]. Qed.

End Values.

(** X4: the object [extractTagsFromContent] returns fits the unions of
    [UniswapHookData].  Whatever the content, the hook type it assigns
    is one of the six phrases or ["custom"], the complexity is ["low"],
    ["medium"] or ["high"], a list it assigns has an entry, and it
    assigns no [dependencies], [version] or [_rawContent]. *)
Theorem extracted_values_fit_the_type (content : jsstring) :
  let hookData := orEmpty (extractTagsFromContent content) in
  whenSet (fun v => In v hookTypeValues) (hookType hookData)
  /\ whenSet (fun v => In v complexityValues) (complexity hookData)
  /\ whenSet (fun items => items <> []) (functionalities hookData)
  /\ whenSet (fun items => items <> []) (examples hookData)
  /\ dependencies hookData = None
  /\ version hookData = None
  /\ _rawContent hookData = None.
Proof.
  cbv zeta. rewrite orEmpty_extract.
  unfold extracted; cbn [hookType complexity functionalities examples
                          dependencies version _rawContent].
  repeat split.
  - pose proof (phraseFound_hookTypes content) as P.
    destruct (phraseFound content) as [type|]; cbn [whenSet] in *.
    + unfold hookTypeValues. apply in_or_app. now left.
    + destruct (structuredFound content); cbn [whenSet]; [|exact I].
      unfold hookTypeValues. apply in_or_app. right. now left.
  - apply captured_complexity_values.
  - apply whenSet_nonEmpty. auto.
  - apply whenSet_nonEmpty. auto.
Qed.

(** X5: the texts [extractTagsFromContent] assigns are trimmed.  The
    name, the description, the code, the test code, the reply content
    and every entry of the two lists have no white space at either
    end. *)
Theorem extracted_texts_are_trimmed (content : jsstring) :
  let hookData := orEmpty (extractTagsFromContent content) in
  whenSet trimmed (name hookData)
  /\ whenSet trimmed (description hookData)
  /\ whenSet trimmed (code hookData)
  /\ whenSet trimmed (testCode hookData)
  /\ whenSet trimmed (_replyContent hookData)
  /\ whenSet (Forall trimmed) (functionalities hookData)
  /\ whenSet (Forall trimmed) (examples hookData).
Proof.
  cbv zeta. rewrite orEmpty_extract.
  unfold extracted; cbn [name description code testCode _replyContent
                         functionalities examples].
  repeat split; try (apply whenSet_option_map; apply trim_trimmed);
    apply whenSet_nonEmpty; intros _; apply execAll_trimmed.
Qed.

(** X6: an object without a hook type holds a reply and nothing else.
    When [extractTagsFromContent] returns an object in which
    [hookType] is absent, its only field is [_replyContent]: the reply
    is extracted after the hook type is defaulted. *)
Theorem no_hookType_only_for_a_reply (content : jsstring) (hookData : HookData) :
  extractTagsFromContent content = Some hookData ->
  hookType hookData = None ->
  exists reply, hookData = set__replyContent (Some reply) emptyObject.
Proof.
  intros H Hn. apply extract_Some in H as [F ->].
  unfold extracted in Hn; cbn [hookType] in Hn.
  destruct (phraseFound content) eqn:P; [discriminate|].
  destruct (structuredFound content) eqn:S; [discriminate|].
  unfold foundAnyData in F. rewrite S, P in F. simpl in F.
  destruct (captured (tag "reply") content) as [r|] eqn:R; [|discriminate].
  exists (trim r).
  unfold structuredFound in S.
  repeat (apply orb_false_elim in S; destruct S as [S ?]).
  unfold extracted. rewrite P, R.
  repeat match goal with
         | E : isSet ?o = false |- _ => apply isSet_false in E; rewrite E
         end.
  assert (S' : structuredFound content = false).
  { unfold structuredFound.
    repeat match goal with E : ?o = None |- _ => rewrite E; clear E end.
    reflexivity. }
  rewrite S'. reflexivity.
Qed.

Lemma no_hookType_only_for_a_reply_witness :
  exists reply,
    set__replyContent (Some (str "Hi")) emptyObject
    = set__replyContent (Some reply) emptyObject.
Proof.
  apply (no_hookType_only_for_a_reply (str "<reply> Hi </reply>")
           (set__replyContent (Some (str "Hi")) emptyObject)).
  - vm_compute. reflexivity.
  - reflexivity.
Defined.

Section FinalData.

Lemma truthyField_false f :
  truthyField f = false -> f = None \/ f = Some [].
Proof. destruct f as [[|c s]|]; simpl; intros H; auto. discriminate. Qed.

End FinalData.

(** X7: what [getFinalData] strips.  For every session, the finalized
    record has no [_rawContent]; its [_replyContent] is absent or is
    the empty string (an empty reply content is not deleted); all its
    other fields are those of the record of the session. *)
Theorem getFinalData_strips_diagnostics (fragments : list jsstring) :
  let this := feed StreamUtils.new fragments in
  _rawContent (getFinalData this) = None
  /\ (_replyContent (getFinalData this) = None
      \/ _replyContent (getFinalData this) = Some [])
  /\ withoutDiagnostics (getFinalData this)
     = withoutDiagnostics (lastParsedData this).
Proof.
  cbv zeta. unfold getFinalData. rewrite session_record.
  set (r := extracted (concat fragments)).
  assert (R : _rawContent r = None) by reflexivity.
  replace (truthyField (_rawContent r)) with false by now rewrite R.
  destruct (truthyField (_replyContent r)) eqn:T.
  - repeat split; auto.
  - apply truthyField_false in T. repeat split; auto.
Qed.

(* ================================================================== *)
(** ** The callbacks of the page *)
(* ================================================================== *)

Section PageFacts.

Lemma captured_Some_firstRegion t s group1 :
  captured (tag t) s = Some group1 ->
  exists rest,
    firstRegion (str "<" ++ str t ++ str ">") (str "</" ++ str t ++ str ">") s
    = Some (group1, rest)
    /\ truthy group1 = true.
Proof.
  unfold captured, matchGroup1. rewrite search_tag.
  destruct (firstRegion _ _ s) as [[c r]|]; [|discriminate]. simpl.
  destruct (truthy c) eqn:T; [|discriminate].
  intros [= <-]. now exists r.
Qed.

(** A completed region has both tags in the content. *)
Lemma firstRegion_includes open close s content rest :
  firstRegion open close s = Some (content, rest) ->
  includes s open 0 = true /\ includes s close 0 = true.
Proof.
  intros F. destruct (firstRegion_occurs _ _ _ _ _ F) as [i [j [Ho [Hc _]]]].
  rewrite !includes_cut, clamp_0. simpl.
  destruct (cut_complete _ _ _ Ho) as [b [a [-> _]]].
  destruct (cut_complete _ _ _ Hc) as [b' [a' [-> _]]].
  split; reflexivity.
Qed.

(** The object [parsedData] of the tag path. *)
Lemma handleHookCodeData_tags content st group1 :
  captured (tag "hookCode") content = Some group1 ->
  Page.handleHookCodeData content st =
  let parsedData := set_code (trim group1) emptyObject in
  let parsedData :=
    Page.whenMatched (matchGroup1 (tag "name") content)
      (fun m1 => set_name (trim m1)) parsedData in
  let parsedData :=
    Page.whenMatched (matchGroup1 (tag "description") content)
      (fun m1 => set_description (trim m1)) parsedData in
  let parsedData :=
    Page.whenMatched (matchGroup1 (tag "gasEstimate") content)
      (fun m1 =>
         let gasValue := parseInt (trim m1) in
         if negb (isNaN gasValue) then set_gasEstimate gasValue else fun d => d)
      parsedData in
  Page.mkPage (spread Page.getEmptyUniswapHookData parsedData) parsedData true
    (Page.streamingComplete st) (Page.isStreaming st) (Page.error st)
    (Page.jsonStreamHandlerRef st).
Proof.
  intros C. destruct (captured_Some_firstRegion _ _ _ C) as [rest [F T]].
  destruct (firstRegion_includes _ _ _ _ _ F) as [I1 I2].
  unfold Page.handleHookCodeData.
  change (str "<hookCode>") with (str "<" ++ str "hookCode" ++ str ">").
  change (str "</hookCode>") with (str "</" ++ str "hookCode" ++ str ">").
  rewrite I1, I2. cbn [andb].
  unfold matchGroup1 at 1. rewrite search_tag, F. cbn [option_map fst].
  rewrite T. reflexivity.
Qed.

(** Without a completed region of a non-empty content, the handler is
    fed. *)
Lemma handleHookCodeData_handler content st :
  captured (tag "hookCode") content = None ->
  Page.handleHookCodeData content st =
  let handler := match Page.jsonStreamHandlerRef st with
                 | Some handler => handler
                 | None => StreamUtils.new
                 end in
  Page.mkPage (Page.jsonData st) (snd (processFragment handler content)) true
    (Page.streamingComplete st) (Page.isStreaming st) (Page.error st)
    (Some (fst (processFragment handler content))).
Proof.
  intros C. unfold Page.handleHookCodeData.
  assert (M : (if includes content (str "<hookCode>") 0
                  && includes content (str "</hookCode>") 0
               then match matchGroup1 (tag "hookCode") content with
                    | Some m1 => if truthy m1 then Some m1 else None
                    | None => None
                    end
               else None) = None).
  { unfold captured in C. destruct (_ && _); [exact C | reflexivity]. }
  rewrite M. cbv zeta.
  destruct (processFragment _ content) as [h v]. reflexivity.
Qed.

Lemma whenMatched_code m assign d :
  (forall g x, code (assign g x) = code x) ->
  code (Page.whenMatched m assign d) = code d.
Proof.
  intros H. unfold Page.whenMatched.
  destruct m as [g|]; [|reflexivity]. destruct (truthy g); [apply H | reflexivity].
Qed.

Lemma whenMatched_gasEstimate m assign d :
  (forall g x, gasEstimate (assign g x) = gasEstimate x) ->
  gasEstimate (Page.whenMatched m assign d) = gasEstimate d.
Proof.
  intros H. unfold Page.whenMatched.
  destruct m as [g|]; [|reflexivity]. destruct (truthy g); [apply H | reflexivity].
Qed.

End PageFacts.

(** The tag path: the gas estimate and the code it stores. *)
Lemma tag_path_data (content : jsstring) (st : Page.State)
    (group1 rest : jsstring) :
  firstRegion (str "<hookCode>") (str "</hookCode>") content
    = Some (group1, rest) ->
  group1 <> [] ->
  let st' := Page.handleHookCodeData content st in
  gasEstimate (Page.streamingHookCode st') <> Some NaN
  /\ gasEstimate (Page.jsonData st') <> Some NaN
  /\ code (Page.streamingHookCode st') = Some (trim group1)
  /\ code (Page.jsonData st') = Some (trim group1).
Proof.
  intros F Hne.
  assert (C : captured (tag "hookCode") content = Some group1).
  { rewrite (captured_firstRegion "hookCode" _ _ _ F).
    destruct group1; [contradiction | reflexivity]. }
  cbv zeta. rewrite (handleHookCodeData_tags _ _ _ C). cbv zeta.
  cbn [Page.streamingHookCode Page.jsonData].
  set (d2 := Page.whenMatched (matchGroup1 (tag "description") content) _ _).
  assert (G2 : gasEstimate d2 = None).
  { unfold d2. rewrite whenMatched_gasEstimate by reflexivity.
    rewrite whenMatched_gasEstimate by reflexivity. reflexivity. }
  assert (C2 : code d2 = Some (trim group1)).
  { unfold d2. rewrite whenMatched_code by reflexivity.
    rewrite whenMatched_code by reflexivity. reflexivity. }
  set (d3 := Page.whenMatched (matchGroup1 (tag "gasEstimate") content) _ d2).
  assert (G3 : gasEstimate d3 <> Some NaN).
  { unfold d3, Page.whenMatched.
    destruct (matchGroup1 (tag "gasEstimate") content) as [g|];
      [|rewrite G2; discriminate].
    destruct (truthy g); [|rewrite G2; discriminate].
    destruct (parseInt (trim g)) eqn:P; simpl.
    - rewrite G2. discriminate.
    - discriminate. }
  assert (C3 : code d3 = Some (trim group1)).
  { unfold d3. rewrite whenMatched_code; [exact C2|].
    intros g x. destruct (negb (isNaN (parseInt (trim g)))); reflexivity. }
  repeat split.
  - exact G3.
  - unfold spread; cbn [gasEstimate Page.getEmptyUniswapHookData].
    rewrite orElse_None. exact G3.
  - exact C3.
  - unfold spread; cbn [code]. now rewrite C3.
Qed.

(** X8: on its tag path the page never stores a gas estimate that is
    not a number.  When the content has a completed [<hookCode>] region
    with a non-empty content, the partial record and [jsonData] after
    [handleHookCodeData] have no [NaN] gas estimate, whatever the
    [<gasEstimate>] region holds; the code is the trimmed content of
    the region. *)
Theorem tag_path_never_stores_NaN (content : jsstring) (st : Page.State)
    (group1 rest : jsstring) :
  firstRegion (str "<hookCode>") (str "</hookCode>") content
    = Some (group1, rest) ->
  group1 <> [] ->
  let st' := Page.handleHookCodeData content st in
  gasEstimate (Page.streamingHookCode st') <> Some NaN
  /\ gasEstimate (Page.jsonData st') <> Some NaN
  /\ code (Page.streamingHookCode st') = Some (trim group1)
  /\ code (Page.jsonData st') = Some (trim group1).
Proof. apply tag_path_data. Qed.

Lemma tag_path_never_stores_NaN_witness :
  gasEstimate
    (Page.streamingHookCode
       (Page.handleHookCodeData
          (str "<gasEstimate>abc</gasEstimate><hookCode> contract A{} </hookCode>")
          Page.initial))
  <> Some NaN.
Proof.
  apply (tag_path_never_stores_NaN
           (str "<gasEstimate>abc</gasEstimate><hookCode> contract A{} </hookCode>")
           Page.initial (str " contract A{} ") []).
  - vm_compute. reflexivity.
  - discriminate.
Defined.

Section Formatting.

Lemma occursAt_prefix p s x j : occursAt p s j -> occursAt p (s ++ x) j.
Proof.
  unfold occursAt. intros H.
  pose proof (startsWith_length _ _ H) as L. rewrite length_skipn in L.
  destruct (le_lt_dec j (length s)) as [Hj|Hj].
  - rewrite skipn_app_le by exact Hj. now apply startsWith_app.
  - rewrite skipn_all2 in H by lia. apply startsWith_nil in H. now subst p.
Qed.

(** The content before the first closing tag holds no closing tag. *)
Lemma cut_before_free p s before after j :
  p <> [] -> cut p s = Some (before, after) -> ~ occursAt p before j.
Proof.
  intros Hp C O.
  pose proof (occursAt_bound _ _ _ Hp O) as B.
  apply (cut_first _ _ _ _ j C); [destruct p; [contradiction | simpl in B; lia]|].
  rewrite (cut_split _ _ _ _ C). now apply occursAt_prefix.
Qed.

(** A closing tag put after a text that holds none is its first
    occurrence. *)
Lemma cut_appended close content :
  match close with
  | c0 :: _ => Ascii.eqb c0 "<" && forallb (fun x => negb (Ascii.eqb x "<")) (tl close)
  | [] => false
  end = true ->
  (forall j, ~ occursAt close content j) ->
  cut close (content ++ close) = Some (content, []).
Proof.
  intros Hp Hfree.
  destruct close as [|c0 close']; [discriminate|].
  apply andb_true_iff in Hp as [H0 Ht]. apply Ascii.eqb_eq in H0. subst c0.
  set (close := "<"%char :: close') in *.
  assert (O : occursAt close (content ++ close) (length content)).
  { unfold occursAt. rewrite skipn_app, skipn_all, Nat.sub_diag. simpl skipn.
    apply startsWith_split. exists []. now rewrite app_nil_r. }
  destruct (cut_complete _ _ _ O) as [b [a [C Hb]]].
  assert (E : length b = length content).
  { destruct (Nat.eq_dec (length b) (length content)) as [E|N]; [exact E|].
    exfalso. assert (Hlt : length b < length content) by lia.
    pose proof (cut_occurs _ _ _ _ C) as Ob.
    destruct (le_lt_dec (length b + length close) (length content)) as [Hin|Hout].
    - apply (Hfree (length b)). now apply (occursAt_app_l _ _ close).
    - destruct (nth_error close (length content - length b)) as [x|] eqn:N'.
      2:{ apply nth_error_None in N'. lia. }
      pose proof (occursAt_nth _ _ _ _ _ Ob N') as H1.
      replace (length b + (length content - length b)) with (length content) in H1
        by lia.
      rewrite nth_error_app2, Nat.sub_diag in H1 by lia. simpl in H1.
      injection H1 as <-.
      destruct (length content - length b) as [|k] eqn:K; [lia|].
      now apply (tail_not_lt close k "<"%char Ht N'). }
  pose proof (cut_split _ _ _ _ C) as S.
  assert (Hb' : b = content /\ close ++ a = close).
  { assert (L : firstn (length content) (content ++ close) = content)
      by (rewrite firstn_app, firstn_all, Nat.sub_diag; simpl; apply app_nil_r).
    assert (R : firstn (length b) (b ++ close ++ a) = b)
      by (rewrite firstn_app, firstn_all, Nat.sub_diag; simpl; apply app_nil_r).
    assert (B : b = content) by (rewrite <- R, <- S, E; exact L).
    subst b. apply app_inv_head in S. now split. }
  destruct Hb' as [-> Ha].
  assert (a = []).
  { apply (f_equal (@length ascii)) in Ha. rewrite length_app in Ha.
    destruct a; [reflexivity | simpl in Ha; lia]. }
  now subst a.
Qed.

(** [trim] returns a part of its argument. *)
Lemma trimStart_part s : exists l, s = l ++ trimStart s.
Proof.
  induction s as [|c s [l IH]]; simpl.
  - now exists [].
  - destruct (isWhiteSpace c).
    + exists (c :: l). simpl. now f_equal.
    + now exists [].
Qed.

Lemma trim_part s : exists l r, s = l ++ trim s ++ r.
Proof.
  destruct (trimStart_part s) as [l Hl].
  destruct (trimStart_part (rev (trimStart s))) as [r' Hr].
  exists l, (rev r'). unfold trim, trimEnd.
  apply (f_equal (@rev ascii)) in Hr. rewrite rev_involutive, rev_app_distr in Hr.
  now rewrite <- Hr.
Qed.

Lemma trim_free p s :
  p <> [] -> (forall j, ~ occursAt p s j) -> forall j, ~ occursAt p (trim s) j.
Proof.
  intros Hp H j O. destruct (trim_part s) as [l [r E]].
  apply (H (j + length l)). rewrite E at 1.
  apply occursAt_skipn. rewrite skipn_app, skipn_all, Nat.sub_diag. simpl skipn.
  rewrite app_nil_l. now apply occursAt_prefix.
Qed.

(** What [extractHookCode] sends is read back by the page as it was
    sent. *)
Lemma captured_formatHookCode content :
  content <> [] ->
  (forall j, ~ occursAt (str "</hookCode>") content j) ->
  captured (tag "hookCode") (formatHookCode content) = Some content.
Proof.
  intros Hne Hfree.
  rewrite (captured_firstRegion "hookCode" (formatHookCode content) content []).
  - destruct content; [contradiction | reflexivity].
  - unfold firstRegion, formatHookCode.
    change (str "<" ++ str "hookCode" ++ str ">") with (str "<hookCode>").
    change (str "</" ++ str "hookCode" ++ str ">") with (str "</hookCode>").
    assert (C : cut (str "<hookCode>")
                  (str "<hookCode>" ++ content ++ str "</hookCode>")
                = Some ([], content ++ str "</hookCode>")) by reflexivity.
    rewrite C. apply cut_appended; [reflexivity | exact Hfree].
Qed.

End Formatting.

(** X9: the code sent by the chat component is the code the page
    shows.  For a code that is trimmed, not empty and without
    [</hookCode>], as [extractHookCode] takes it from the buffer, the
    page called with [<hookCode>code</hookCode>] stores exactly this
    code in its partial record and in [jsonData], and leaves its stream
    handler alone. *)
Theorem formatted_code_round_trip (content : jsstring) (st : Page.State) :
  content <> [] ->
  trimmed content ->
  (forall j, ~ occursAt (str "</hookCode>") content j) ->
  let st' := Page.handleHookCodeData (formatHookCode content) st in
  code (Page.streamingHookCode st') = Some content
  /\ code (Page.jsonData st') = Some content
  /\ Page.jsonStreamHandlerRef st' = Page.jsonStreamHandlerRef st.
Proof.
  intros Hne Htrim Hfree. cbv zeta.
  pose proof (captured_formatHookCode content Hne Hfree) as C.
  destruct (captured_Some_firstRegion _ _ _ C) as [rest [F _]].
  change (str "<" ++ str "hookCode" ++ str ">") with (str "<hookCode>") in F.
  change (str "</" ++ str "hookCode" ++ str ">") with (str "</hookCode>") in F.
  destruct (tag_path_data _ st _ _ F Hne) as [_ [_ [C1 C2]]].
  rewrite C1, C2, Htrim. repeat split.
  now rewrite (handleHookCodeData_tags _ _ _ C).
Qed.

Lemma formatted_code_round_trip_witness :
  code (Page.streamingHookCode
          (Page.handleHookCodeData (formatHookCode (str "contract A{}"))
             Page.initial))
  = Some (str "contract A{}").
Proof.
  apply (formatted_code_round_trip (str "contract A{}") Page.initial).
  - discriminate.
  - vm_compute. reflexivity.
  - apply no_occurrence_by_cut. vm_compute. reflexivity.
Defined.

Section Fallback.

Lemma processFragment_view this fragment :
  snd (processFragment this fragment)
  = partialView (fst (processFragment this fragment)).
Proof.
  unfold processFragment, processFragmentWith, partialView. simpl.
  destruct (extractTagsFromContent (rawContent this ++ fragment)); reflexivity.
Qed.

Lemma handleAll_fallback contents st :
  Forall (fun content => captured (tag "hookCode") content = None) contents ->
  contents <> [] ->
  Page.jsonStreamHandlerRef (handleAll contents st)
  = Some (feed (handlerOf st) contents)
  /\ Page.streamingHookCode (handleAll contents st)
     = partialView (feed (handlerOf st) contents).
Proof.
  revert st; induction contents as [|content rest IH]; intros st Hall Hne;
    [contradiction|].
  inversion Hall as [|? ? Hc Hrest]; subst.
  unfold handleAll. cbn [fold_left]. fold (handleAll rest).
  rewrite (handleHookCodeData_handler _ _ Hc). cbv zeta. fold (handlerOf st).
  rewrite feed_cons.
  set (st1 := Page.mkPage _ _ _ _ _ _ _).
  destruct rest as [|content' rest'].
  - unfold st1. simpl. split; [reflexivity | apply processFragment_view].
  - replace (fst (processFragment (handlerOf st) content)) with (handlerOf st1)
      by reflexivity.
    apply IH; [exact Hrest | discriminate].
Qed.

End Fallback.

(** X10: on its fallback path the page accumulates.  When none of the
    contents handed to [handleHookCodeData] has a completed
    [<hookCode>] region with a content, and the page has no handler
    yet, the calls feed one handler: the partial record of the page
    after the last call is what [extractTagsFromContent] finds in the
    contents put together, with this text as [_rawContent]. *)
Theorem fallback_path_accumulates (contents : list jsstring) (st : Page.State) :
  Forall (fun content => captured (tag "hookCode") content = None) contents ->
  contents <> [] ->
  Page.jsonStreamHandlerRef st = None ->
  Page.jsonStreamHandlerRef (handleAll contents st)
  = Some (feed StreamUtils.new contents)
  /\ Page.streamingHookCode (handleAll contents st)
     = set__rawContent (Some (concat contents))
         (orEmpty (extractTagsFromContent (concat contents))).
Proof.
  intros Hall Hne Href.
  destruct (handleAll_fallback contents st Hall Hne) as [H1 H2].
  unfold handlerOf in *. rewrite Href in *.
  split; [exact H1|].
  rewrite H2. unfold partialView.
  now rewrite feed_rawContent, feed_new.
Qed.

Lemma fallback_path_accumulates_witness :
  Page.streamingHookCode
    (handleAll [str "<hookCode>contract"; str " A{}</hookCode>"] Page.initial)
  = set__rawContent
      (Some (concat [str "<hookCode>contract"; str " A{}</hookCode>"]))
      (orEmpty
         (extractTagsFromContent
            (concat [str "<hookCode>contract"; str " A{}</hookCode>"]))).
Proof.
  apply (fallback_path_accumulates
           [str "<hookCode>contract"; str " A{}</hookCode>"] Page.initial).
  - repeat constructor; vm_compute; reflexivity.
  - discriminate.
  - reflexivity.
Defined.

Section Wiring.

Lemma pageKept_refl c page : pageKept c page c page.
Proof. unfold pageKept. auto. Qed.

Lemma pageKept_trans c1 p1 c2 p2 c3 p3 :
  pageKept c1 p1 c2 p2 -> pageKept c2 p2 c3 p3 -> pageKept c1 p1 c3 p3.
Proof.
  unfold pageKept. intros [A1 [A2 [A3 A4]]] [B1 [B2 [B3 B4]]].
  repeat split; try congruence. auto.
Qed.

(** The step of [extractHookCode] that calls the page. *)
Lemma pageKept_hookCode c page afterOpen content after :
  cut (str "</hookCode>") afterOpen = Some (content, after) ->
  truthy (trim content) = true ->
  forall buffer,
    pageKept c page
      (Chat.set_bufferRef buffer
         (Chat.set_parsedContent
            (Chat.mkParsed (Chat.reply (Chat.parsedContent c)) (trim content)) c))
      (Page.handleHookCodeData (formatHookCode (trim content)) page).
Proof.
  intros C T buffer.
  assert (Hne : trim content <> []) by (destruct (trim content); discriminate).
  assert (Hfree : forall j, ~ occursAt (str "</hookCode>") (trim content) j).
  { apply trim_free; [discriminate|]. intros j.
    eapply cut_before_free; [|exact C]. discriminate. }
  pose proof (captured_formatHookCode _ Hne Hfree) as Cap.
  destruct (captured_Some_firstRegion _ _ _ Cap) as [rest [F _]].
  change (str "<" ++ str "hookCode" ++ str ">") with (str "<hookCode>") in F.
  change (str "</" ++ str "hookCode" ++ str ">") with (str "</hookCode>") in F.
  destruct (tag_path_data _ page _ _ F Hne) as [_ [_ [C1 _]]].
  rewrite (trim_trimmed content) in C1.
  unfold pageKept. rewrite (handleHookCodeData_tags _ _ _ Cap).
  repeat split. intros _. right. simpl. 
  rewrite (handleHookCodeData_tags _ _ _ Cap) in C1. exact C1.
Qed.

Lemma processBuffer_pageKept fuel c page c' page' :
  Chat.processBuffer Page.handleHookCodeData fuel (c, page) = Some (c', page') ->
  pageKept c page c' page'.
Proof.
  revert c page c' page'; induction fuel as [|n IH]; intros c page c' page';
    [discriminate|].
  cbn [Chat.processBuffer]. rewrite appendTagContentToReply_region.
  assert (Step2 : forall c1 p1,
             Chat.extractHookCode Page.handleHookCodeData
               (Chat.processBuffer Page.handleHookCodeData n)
               (str "<hookCode>") (str "</hookCode>") (c1, p1)
             = Some (c', page') ->
             pageKept c1 p1 c' page').
  { intros c1 p1. rewrite extractHookCode_region. unfold splitRegion.
    destruct (cut (str "<hookCode>") (Chat.bufferRef c1)) as [[b a]|];
      [|intros [= <- <-]; apply pageKept_refl].
    destruct (cut (str "</hookCode>") a) as [[ct r]|] eqn:C;
      [|intros [= <- <-]; apply pageKept_refl].
    cbv zeta. destruct (truthy (trim ct)) eqn:T.
    - intros H. apply IH in H.
      eapply pageKept_trans; [|exact H].
      apply (pageKept_hookCode _ _ _ _ _ C T).
    - intros H. apply IH in H.
      eapply pageKept_trans; [|exact H].
      unfold pageKept. repeat split. exact (fun A => A). }
  destruct (splitRegion (str "<reply>") (str "</reply>") (Chat.bufferRef c))
    as [[[b ct] r]|].
  - cbv zeta.
    match goal with
    | |- context [Chat.processBuffer _ n (?x, page)] =>
        destruct (Chat.processBuffer Page.handleHookCodeData n (x, page))
          as [[c1 p1]|] eqn:P1; [|discriminate];
        assert (K1 : pageKept c page x page)
    end.
    { unfold pageKept. repeat split.
      destruct (truthy (trim ct)); exact (fun H => H). }
    intros H. apply IH in P1. apply Step2 in H.
    eapply pageKept_trans; [exact K1|].
    eapply pageKept_trans; [exact P1 | exact H].
  - apply Step2.
Qed.

Lemma processTextWithTypingEffect_pageKept text c page c' page' :
  Chat.processTextWithTypingEffect Page.handleHookCodeData text (c, page)
  = Some (c', page') ->
  pageKept c page c' page'.
Proof.
  unfold Chat.processTextWithTypingEffect.
  destruct (Chat.processBuffer _ _ _) as [[c1 p1]|] eqn:P; [|discriminate].
  destruct (removeLoop _ markupRegex text) as [cleaned|]; [|discriminate].
  intros [= <- <-]. apply processBuffer_pageKept in P.
  unfold pageKept in *. simpl in *. exact P.
Qed.

End Wiring.

(** X11: the chat component never feeds the page's stream handler.
    Whatever text it ingests, in whatever state, every message it
    sends to the page goes through the tag path of
    [handleHookCodeData]: the handler of the page, its error and its
    streaming flag are left as they were. *)
Theorem chat_never_feeds_the_handler (text : jsstring) (c : Chat.Component)
    (page : Page.State) :
  exists c' page',
    Chat.processTextWithTypingEffect Page.handleHookCodeData text (c, page)
    = Some (c', page')
    /\ Page.jsonStreamHandlerRef page' = Page.jsonStreamHandlerRef page
    /\ Page.error page' = Page.error page
    /\ Page.isStreaming page' = Page.isStreaming page.
Proof.
  destruct (processTextWithTypingEffect_drains _ Page.handleHookCodeData text c page)
    as [c' [page' [P _]]].
  exists c', page'. split; [exact P|].
  apply processTextWithTypingEffect_pageKept in P.
  destruct P as [A [B [C _]]]. auto.
Qed.

(** X12: the chat component and the page agree on the code.  When the
    code held by the component, if any, is the code of the partial
    record of the page, this is still so after the component has
    ingested a text. *)
Theorem chat_and_page_agree_on_the_code (text : jsstring) (c c' : Chat.Component)
    (page page' : Page.State) :
  codeAgrees c page ->
  Chat.processTextWithTypingEffect Page.handleHookCodeData text (c, page)
  = Some (c', page') ->
  codeAgrees c' page'.
Proof.
  intros A P. apply processTextWithTypingEffect_pageKept in P.
  destruct P as [_ [_ [_ K]]]. auto.
Qed.

Lemma chat_and_page_agree_on_the_code_witness :
  codeAgrees
    (Chat.mkComponent (str " contract A{}") true None true
       (Chat.mkParsed [] (str "contract A{}")) [] [])
    (Page.handleHookCodeData (formatHookCode (str "contract A{}")) Page.initial).
Proof.
  apply (chat_and_page_agree_on_the_code (str "<hookCode> contract A{}</hookCode>")
           Chat.initial _ Page.initial).
  - now left.
  - vm_compute. reflexivity.
Defined.

(* ================================================================== *)
(** ** More on the chat component *)
(* ================================================================== *)

Section ChatFacts.

Variable Env : Type.
Variable onStreamingChange : bool -> Env -> Env.
Variable onReplyReceived : jsstring -> Env -> Env.
Variable onError : jsstring -> Env -> Env.

(** A drained buffer is left alone. *)
Lemma processBuffer_drained fuel c (env : Env) :
  firstRegion (str "<reply>") (str "</reply>") (Chat.bufferRef c) = None ->
  firstRegion (str "<hookCode>") (str "</hookCode>") (Chat.bufferRef c) = None ->
  Chat.processBuffer onReplyReceived (S fuel) (c, env) = Some (c, env).
Proof.
  intros R H. cbn [Chat.processBuffer].
  rewrite appendTagContentToReply_region.
  apply splitRegion_None in R. rewrite R.
  rewrite extractHookCode_region.
  apply splitRegion_None in H. now rewrite H.
Qed.

Lemma replyGrows_refl c : replyGrows c c.
Proof. split; [exists []; now rewrite app_nil_r | auto]. Qed.

Lemma replyGrows_trans c1 c2 c3 :
  replyGrows c1 c2 -> replyGrows c2 c3 -> replyGrows c1 c3.
Proof.
  intros [[m1 A1] B1] [[m2 A2] B2]. split; [|auto].
  exists (m1 ++ m2). now rewrite A2, A1, app_assoc.
Qed.

Lemma processBuffer_replyGrows fuel c (env : Env) c' env' :
  Chat.processBuffer onReplyReceived fuel (c, env) = Some (c', env') ->
  replyGrows c c'.
Proof.
  revert c env c' env'; induction fuel as [|n IH]; intros c env c' env';
    [discriminate|].
  cbn [Chat.processBuffer]. rewrite appendTagContentToReply_region.
  assert (Step2 : forall c1 (e1 : Env),
             Chat.extractHookCode onReplyReceived
               (Chat.processBuffer onReplyReceived n)
               (str "<hookCode>") (str "</hookCode>") (c1, e1)
             = Some (c', env') ->
             replyGrows c1 c').
  { intros c1 e1. rewrite extractHookCode_region.
    destruct (splitRegion _ _ (Chat.bufferRef c1)) as [[[b ct] r]|];
      [|intros [= <- <-]; apply replyGrows_refl].
    cbv zeta. destruct (truthy (trim ct)).
    - intros H. apply IH in H.
      eapply replyGrows_trans; [|exact H].
      split; [exists []; simpl; now rewrite app_nil_r | simpl; auto].
    - intros H. apply IH in H.
      eapply replyGrows_trans; [|exact H].
      split; [exists []; simpl; now rewrite app_nil_r | simpl; auto]. }
  destruct (splitRegion (str "<reply>") (str "</reply>") (Chat.bufferRef c))
    as [[[b ct] r]|].
  - cbv zeta.
    match goal with
    | |- context [Chat.processBuffer _ n (?x, env)] =>
        destruct (Chat.processBuffer onReplyReceived n (x, env))
          as [[c1 e1]|] eqn:P1; [|discriminate];
        assert (K1 : replyGrows c x)
    end.
    { destruct (truthy (trim ct)).
      - split; [eexists; simpl; reflexivity | simpl; auto].
      - split; [exists []; simpl; now rewrite app_nil_r | simpl; auto]. }
    intros H. apply IH in P1. apply Step2 in H.
    eapply replyGrows_trans; [exact K1|].
    eapply replyGrows_trans; [exact P1 | exact H].
  - apply Step2.
Qed.

Lemma processTextWithTypingEffect_replyGrows text c (env : Env) c' env' :
  Chat.processTextWithTypingEffect onReplyReceived text (c, env)
  = Some (c', env') ->
  replyGrows c c'.
Proof.
  unfold Chat.processTextWithTypingEffect.
  destruct (Chat.processBuffer _ _ _) as [[c1 e1]|] eqn:P; [|discriminate].
  destruct (removeLoop _ markupRegex text) as [cleaned|]; [|discriminate].
  intros [= <- <-]. apply processBuffer_replyGrows in P.
  unfold replyGrows in *. simpl in *. exact P.
Qed.

(** Text without [<] holds no markup. *)
Lemma searchSplit_plain text :
  (forall x, In x text -> x <> "<"%char) ->
  searchSplit markupRegex text = None.
Proof.
  unfold searchSplit. generalize (@nil ascii) as acc.
  induction text as [|a text IH]; intros acc H.
  - reflexivity.
  - assert (Ha : a <> "<"%char) by (apply H; now left).
    unfold markupRegex at 1, lit at 1. cbn [startsWith str list_ascii_of_string].
    destruct (Ascii.eqb "<" a) eqn:E.
    + apply Ascii.eqb_eq in E. congruence.
    + cbn [andb]. apply IH. intros x Hx. apply H. now right.
Qed.

Lemma removeLoop_plain fuel text :
  (forall x, In x text -> x <> "<"%char) ->
  removeLoop (S fuel) markupRegex text = Some text.
Proof. intros H. cbn [removeLoop]. now rewrite searchSplit_plain. Qed.

(** The events are all handled, and the local text [finalReply] gets
    the text of each data chunk. *)
Lemma handleEvents_total events (w : Chat.world Env) finalReply :
  exists w',
    Chat.handleEvents onStreamingChange onReplyReceived onError events
      (w, finalReply)
    = Some (w', finalReply ++ concat (dataTexts events)).
Proof.
  revert w finalReply; induction events as [|event events IH]; intros w fr.
  - exists w. simpl. now rewrite app_nil_r.
  - cbn [Chat.handleEvents].
    destruct event as [|[text|content|]|].
    + cbn [Chat.handleEvent dataTexts flat_map app].
      destruct (IH (Chat.resetStreamingState onStreamingChange false w) fr)
        as [w' Hw']. exists w'. exact Hw'.
    + cbn [Chat.handleEvent dataTexts flat_map].
      destruct w as [c env].
      destruct (processTextWithTypingEffect_drains _ onReplyReceived text c env)
        as [c' [env' [P _]]].
      rewrite P.
      destruct (IH (c', env') (fr ++ text)) as [w' Hw']. exists w'.
      cbn [concat app]. fold (dataTexts events).
      rewrite <- app_assoc in Hw'. exact Hw'.
    + cbn [Chat.handleEvent dataTexts flat_map app].
      destruct (IH (Chat.handleStreamError onStreamingChange onError content w) fr)
        as [w' Hw']. exists w'. exact Hw'.
    + cbn [Chat.handleEvent dataTexts flat_map app].
      destruct (IH w fr) as [w' Hw']. exists w'. exact Hw'.
    + cbn [Chat.handleEvent dataTexts flat_map app].
      destruct (IH w fr) as [w' Hw']. exists w'. exact Hw'.
Qed.

End ChatFacts.

(** X13: draining is idempotent.  After the chat component has
    ingested a text, a further [processBuffer] changes nothing, neither
    in the component nor in what it acts on. *)
Theorem processBuffer_idempotent
    (Env : Type) (onReplyReceived : jsstring -> Env -> Env)
    (text : jsstring) (c : Chat.Component) (env : Env) :
  exists c' env',
    Chat.processTextWithTypingEffect onReplyReceived text (c, env)
    = Some (c', env')
    /\ forall fuel,
         Chat.processBuffer onReplyReceived (S fuel) (c', env') = Some (c', env').
Proof.
  destruct (processTextWithTypingEffect_drains Env onReplyReceived text c env)
    as [c' [env' [P [R [H _]]]]].
  exists c', env'. split; [exact P|].
  intros fuel. now apply processBuffer_drained.
Qed.

(** X14: the reply is append-only.  After the chat component has
    ingested a text, the accumulated reply is the former one followed
    by what was added, and the reply shown is the accumulated reply if
    it was so before. *)
Theorem reply_is_append_only
    (Env : Type) (onReplyReceived : jsstring -> Env -> Env)
    (text : jsstring) (c : Chat.Component) (env : Env) :
  exists c' env',
    Chat.processTextWithTypingEffect onReplyReceived text (c, env)
    = Some (c', env')
    /\ replyGrows c c'.
Proof.
  destruct (processTextWithTypingEffect_drains Env onReplyReceived text c env)
    as [c' [env' [P _]]].
  exists c', env'. split; [exact P|].
  now apply processTextWithTypingEffect_replyGrows in P.
Qed.

(** X15: an error chunk does not end the session.  A data chunk that
    comes after an error chunk is ingested like any other: the
    component shows streaming and typing again, its accumulated reply
    only grows, while the page still holds the error and has streaming
    off. *)
Theorem error_chunk_is_not_terminal (c : Chat.Component) (page : Page.State)
    (finalReply message text : jsstring) :
  exists c' page',
    Page.handleEvents
      [Chat.ChunkEvent (Chat.ErrorChunk message);
       Chat.ChunkEvent (Chat.DataChunk text)]
      ((c, page), finalReply)
    = Some ((c', page'), finalReply ++ text)
    /\ Chat.isStreamingReply c' = true
    /\ Chat.isTyping c' = true
    /\ Page.error page' = Some message
    /\ Page.isStreaming page' = false
    /\ exists more,
         Chat.accumulatedReplyRef c' = Chat.accumulatedReplyRef c ++ more.
Proof.
  unfold Page.handleEvents. cbn [Chat.handleEvents Chat.handleEvent].
  destruct (Chat.handleStreamError Page.handleStreamingChange Page.handleError
              message (c, page)) as [c1 p1] eqn:E.
  assert (E1 : Chat.accumulatedReplyRef c1 = Chat.accumulatedReplyRef c
               /\ Page.error p1 = Some message /\ Page.isStreaming p1 = false).
  { unfold Chat.handleStreamError, Chat.resetStreamingState in E.
    injection E as <- <-. repeat split. }
  destruct E1 as [A1 [A2 A3]].
  destruct (processTextWithTypingEffect_drains _ Page.handleHookCodeData text c1 p1)
    as [c' [page' [P _]]].
  rewrite P. exists c', page'. split; [reflexivity|].
  pose proof (processTextWithTypingEffect_pageKept _ _ _ _ _ P) as [_ [K2 [K3 _]]].
  pose proof (processTextWithTypingEffect_replyGrows _ _ _ _ _ _ _ P) as [[more G] _].
  assert (F : Chat.isStreamingReply c' = true /\ Chat.isTyping c' = true).
  { unfold Chat.processTextWithTypingEffect in P.
    destruct (Chat.processBuffer _ _ _) as [[c2 p2]|]; [|discriminate].
    destruct (removeLoop _ markupRegex text); [|discriminate].
    injection P as <- _. split; reflexivity. }
  destruct F as [F1 F2].
  repeat split; try congruence.
  exists more. congruence.
Qed.

(** X16: the end of a response.  [processStreamEvents] handles every
    list of events to its end.  The text it returns holds the texts of
    the data chunks, in order, whatever else the events are; the
    component is then out of streaming, with an empty buffer and an
    empty streaming reply. *)
Theorem processStreamEvents_transcript
    (Env : Type) (onStreamingChange : bool -> Env -> Env)
    (onReplyReceived onError addAssistantMessage : jsstring -> Env -> Env)
    (events : list Chat.StreamEvent) (w : Chat.world Env) :
  exists c' env',
    Chat.processStreamEvents onStreamingChange onReplyReceived onError
      addAssistantMessage events w
    = Some ((c', env'), concat (dataTexts events))
    /\ Chat.isStreamingReply c' = false
    /\ Chat.isTyping c' = false
    /\ Chat.bufferRef c' = []
    /\ Chat.streamingReply c' = [].
Proof.
  destruct w as [c env]. unfold Chat.processStreamEvents.
  destruct (handleEvents_total Env onStreamingChange onReplyReceived onError
              events (Chat.set_accumulatedReplyRef [] c, env) [])
    as [[c1 env1] H].
  cbv zeta.
  match goal with
  | |- context [match ?x with Some _ => _ | None => _ end] =>
      replace x with (Some ((c1, env1), concat (dataTexts events)))
        by (symmetry; exact H)
  end.
  unfold Chat.resetStreamingState. cbn [negb].
  eexists _, _. split; [reflexivity|]. repeat split.
Qed.

(** X17: plain text goes to the streaming reply as it is.  A text
    without [<] is appended unchanged to [streamingReply]. *)
Theorem plain_text_is_streamed_verbatim
    (Env : Type) (onReplyReceived : jsstring -> Env -> Env)
    (text : jsstring) (c : Chat.Component) (env : Env) :
  (forall x, In x text -> x <> "<"%char) ->
  exists c' env',
    Chat.processTextWithTypingEffect onReplyReceived text (c, env)
    = Some (c', env')
    /\ Chat.streamingReply c' = Chat.streamingReply c ++ text.
Proof.
  intros Hplain.
  destruct (processTextWithTypingEffect_drains Env onReplyReceived text c env)
    as [c' [env' [P _]]].
  exists c', env'. split; [exact P|].
  unfold Chat.processTextWithTypingEffect in P.
  destruct (Chat.processBuffer _ _ _) as [[c2 e2]|] eqn:B; [|discriminate].
  rewrite (removeLoop_plain _ _ Hplain) in P.
  injection P as <- _. simpl.
  assert (S : Chat.streamingReply c2 = Chat.streamingReply c).
  { clear - B. revert B.
    generalize (S (length (Chat.bufferRef
                             (Chat.set_bufferRef (Chat.bufferRef c ++ text) c)))).
    assert (G : forall n c0 (e0 : Env) c3 e3,
               Chat.processBuffer onReplyReceived n (c0, e0) = Some (c3, e3) ->
               Chat.streamingReply c3 = Chat.streamingReply c0).
    { induction n as [|n IH]; intros c0 e0 c3 e3; [discriminate|].
      cbn [Chat.processBuffer]. rewrite appendTagContentToReply_region.
      assert (Step2 : forall c1 (e1 : Env),
                 Chat.extractHookCode onReplyReceived
                   (Chat.processBuffer onReplyReceived n)
                   (str "<hookCode>") (str "</hookCode>") (c1, e1)
                 = Some (c3, e3) ->
                 Chat.streamingReply c3 = Chat.streamingReply c1).
      { intros c1 e1. rewrite extractHookCode_region.
        destruct (splitRegion _ _ (Chat.bufferRef c1)) as [[[b ct] r]|];
          [|now intros [= <- <-]].
        cbv zeta. destruct (truthy (trim ct)); intros H; apply IH in H;
          rewrite H; reflexivity. }
      destruct (splitRegion (str "<reply>") (str "</reply>") (Chat.bufferRef c0))
        as [[[b ct] r]|]; [|apply Step2].
      cbv zeta.
      match goal with
      | |- context [Chat.processBuffer _ n (?x, e0)] =>
          destruct (Chat.processBuffer onReplyReceived n (x, e0))
            as [[c1 e1]|] eqn:P1; [|discriminate]
      end.
      intros H. apply Step2 in H. apply IH in P1. rewrite H, P1.
      destruct (truthy (trim ct)); reflexivity. }
    intros n B. apply G in B. exact B. }
  now rewrite S.
Qed.

Lemma plain_text_is_streamed_verbatim_witness :
  exists c' env',
    Chat.processTextWithTypingEffect Page.handleHookCodeData (str "Hi there")
      (Chat.initial, Page.initial)
    = Some (c', env')
    /\ Chat.streamingReply c'
       = Chat.streamingReply Chat.initial ++ str "Hi there".
Proof.
  apply (plain_text_is_streamed_verbatim _ Page.handleHookCodeData
           (str "Hi there") Chat.initial Page.initial).
  intros x Hx. simpl in Hx.
  repeat (destruct Hx as [<-|Hx]; [discriminate|]). contradiction.
Defined.

(* ================================================================== *)
(** ** [extractTagContent] *)
(* ================================================================== *)

Section TagContent.

Lemma cut_occurs_later p s n :
  isSet (cut p (skipn n s)) = true -> isSet (cut p s) = true.
Proof.
  destruct (cut p (skipn n s)) as [[b a]|] eqn:C; [|discriminate].
  intros _. apply cut_occurs in C. apply occursAt_skipn in C.
  destruct (cut_complete _ _ _ C) as [b' [a' [C' _]]]. now rewrite C'.
Qed.

Lemma extractTagContent_cut content tagName :
  Chat.extractTagContent content tagName =
  match cut (str "<" ++ tagName ++ str ">") content with
  | Some (before, afterOpen) =>
      match cut (str "</" ++ tagName ++ str ">") afterOpen with
      | Some (inner, _) => trim inner
      | None =>
          if isSet (cut (str "</" ++ tagName ++ str ">") content)
          then trim (before ++ str "<" ++ tagName ++ str ">")
          else []
      end
  | None => []
  end.
Proof.
  unfold Chat.extractTagContent.
  set (open := str "<" ++ tagName ++ str ">").
  set (close := str "</" ++ tagName ++ str ">").
  cbv zeta.
  destruct (cut open content) as [[b a]|] eqn:C.
  - destruct (guards_open open close content b a C) as [G1 G2].
    rewrite G1. cbn [andb].
    rewrite (includes_cut content close 0), clamp_0. cbn [skipn].
    destruct (cut close a) as [[c r]|] eqn:C'.
    + assert (I : isSet (cut close content) = true).
      { apply (cut_occurs_later close content (length b + length open)).
        rewrite <- (cut_after _ _ _ _ C), C'. reflexivity. }
      rewrite I.
      assert (SR : splitRegion open close content = Some (b, c, r)).
      { unfold splitRegion. now rewrite C, C'. }
      destruct (guards_region _ _ _ _ _ _ SR) as [E _]. now rewrite E.
    + destruct (isSet (cut close content)); [|reflexivity].
      f_equal.
      pose proof (cut_split _ _ _ _ C) as Hs.
      assert (Hstart : (indexOf content open 0 + Z.of_nat (length open))%Z
                       = Z.of_nat (length b + length open)).
      { rewrite (indexOf_first _ _ _ _ C). lia. }
      rewrite Hstart.
      assert (L : length b + length open <= length content).
      { rewrite Hs, !length_app. lia. }
      rewrite indexOf_cut, clamp_inside by exact L.
      rewrite <- (cut_after _ _ _ _ C), C'.
      unfold substring. rewrite clamp_inside by exact L.
      assert (Z0 : clamp content (-1) = 0) by (unfold clamp; lia).
      rewrite Z0, Nat.min_0_r, Nat.max_0_r, Nat.sub_0_r. cbn [skipn].
      rewrite Hs at 1. rewrite app_assoc, firstn_app.
      rewrite firstn_all2 by (rewrite length_app; lia).
      rewrite length_app, Nat.sub_diag. cbn [firstn]. now rewrite app_nil_r.
  - rewrite (guards_no_open _ _ C). reflexivity.
Qed.

End TagContent.

(* ================================================================== *)
(** ** The events of the response *)
(* ================================================================== *)

Section Framing.

Variable sep : jsstring.
Hypothesis sep_nonEmpty : sep <> [].

Lemma find_shorter s i :
  find sep s = Some i -> length (skipn (i + length sep) s) < length s.
Proof.
  rewrite find_cut. destruct (cut sep s) as [[b a]|] eqn:C; [|discriminate].
  intros [= <-]. cbn [fst]. rewrite <- (cut_after _ _ _ _ C).
  now apply (cut_shorter sep s b a).
Qed.

Lemma splitLoop_fuel f1 : forall f2 s,
  length s < f1 -> length s < f2 -> splitLoop f1 sep s = splitLoop f2 sep s.
Proof.
  induction f1 as [|n IH]; intros f2 s H1 H2; [lia|].
  destruct f2 as [|m]; [lia|]. cbn [splitLoop].
  destruct (find sep s) as [i|] eqn:F; [|reflexivity].
  pose proof (find_shorter _ _ F) as L.
  f_equal. apply IH; lia.
Qed.

(** [splitLoop] has fuel enough in [split]. *)
Lemma splitLoop_total fuel : forall s,
  length s < fuel -> exists pieces, splitLoop fuel sep s = Some pieces.
Proof.
  induction fuel as [|n IH]; intros s H; [lia|]. cbn [splitLoop].
  destruct (find sep s) as [i|] eqn:F; [|now exists [s]].
  pose proof (find_shorter _ _ F) as L.
  destruct (IH (skipn (i + length sep) s)) as [pieces E]; [lia|].
  rewrite E. now eexists.
Qed.

Lemma split_cut s :
  split sep s =
  match cut sep s with
  | Some (before, after) => before :: split sep after
  | None => [s]
  end.
Proof.
  unfold split at 1. cbn [splitLoop]. rewrite find_cut.
  destruct (cut sep s) as [[b a]|] eqn:C; [|reflexivity].
  cbn [option_map fst].
  pose proof (cut_split _ _ _ _ C) as Hs.
  pose proof (cut_shorter sep s b a sep_nonEmpty C) as L.
  rewrite <- (cut_after _ _ _ _ C).
  assert (Hb : firstn (length b) s = b).
  { rewrite Hs, firstn_app, Nat.sub_diag, firstn_all. cbn [firstn].
    apply app_nil_r. }
  rewrite Hb.
  rewrite (splitLoop_fuel (length s) (S (length a)) a) by lia.
  unfold split.
  destruct (splitLoop_total (S (length a)) a) as [pieces E]; [lia|].
  now rewrite E.
Qed.

Lemma split_nonEmpty s : split sep s <> [].
Proof. rewrite split_cut. destruct (cut sep s) as [[b a]|]; discriminate. Qed.

Lemma removelast_cons {A} (x : A) l : l <> [] -> removelast (x :: l) = x :: removelast l.
Proof. destruct l; [contradiction | reflexivity]. Qed.

Lemma last_cons {A} (x : A) l d : l <> [] -> last (x :: l) d = last l d.
Proof. destruct l; [contradiction | reflexivity]. Qed.

Lemma last_app_r {A} (l l' : list A) d : l' <> [] -> last (l ++ l') d = last l' d.
Proof.
  intros N. induction l as [|x l IH]; [reflexivity|].
  cbn [app]. rewrite last_cons; [exact IH|]. now destruct l.
Qed.

(** Splitting a text that arrives in two parts. *)
Lemma split_app x : forall s,
  split sep (s ++ x)
  = removelast (split sep s) ++ split sep (last (split sep s) [] ++ x).
Proof.
  intros s. remember (length s) as n eqn:Hn. revert s Hn.
  induction n as [n IH] using lt_wf_ind. intros s Hn.
  rewrite (split_cut s).
  destruct (cut sep s) as [[b a]|] eqn:C.
  - rewrite (split_cut (s ++ x)), (cut_app _ _ x _ _ C).
    pose proof (cut_shorter sep s b a sep_nonEmpty C) as L.
    rewrite (IH (length a)) by (subst n; auto).
    rewrite removelast_cons, last_cons by apply split_nonEmpty.
    reflexivity.
  - reflexivity.
Qed.

(** The pieces, put back together with the separator, give the text;
    no piece holds the separator. *)
Lemma split_join : forall s,
  s = concat (map (fun piece => piece ++ sep) (removelast (split sep s)))
      ++ last (split sep s) []
  /\ Forall (fun piece => cut sep piece = None) (split sep s).
Proof.
  intros s. remember (length s) as n eqn:Hn. revert s Hn.
  induction n as [n IH] using lt_wf_ind. intros s Hn.
  rewrite (split_cut s).
  destruct (cut sep s) as [[b a]|] eqn:C.
  - pose proof (cut_shorter sep s b a sep_nonEmpty C) as L.
    destruct (IH (length a) ltac:(subst n; exact L) a eq_refl) as [J F].
    rewrite removelast_cons, last_cons by apply split_nonEmpty.
    split.
    + cbn [map concat]. rewrite <- !app_assoc, <- J.
      now apply cut_split.
    + constructor; [|exact F].
      destruct (cut sep b) as [[b' a']|] eqn:Cb; [|reflexivity].
      exfalso. apply cut_occurs in Cb.
      exact (cut_before_free _ _ _ _ _ sep_nonEmpty C Cb).
  - split; [reflexivity|]. constructor; [exact C | constructor].
Qed.

End Framing.

Section Events.

Variable parse : jsstring -> option Chat.StreamChunk.

Lemma eventSeparator_nonEmpty : Chat.eventSeparator <> [].
Proof. discriminate. Qed.

Lemma decodeEvents_app events later :
  Chat.decodeEvents parse (events ++ later)
  = Chat.decodeEvents parse events ++ Chat.decodeEvents parse later.
Proof. unfold Chat.decodeEvents. apply flat_map_app. Qed.

(** What is left in the buffer holds no separator. *)
Lemma frameEvents_buffer buffer text :
  cut Chat.eventSeparator (snd (Chat.frameEvents buffer text)) = None.
Proof.
  unfold Chat.frameEvents. cbn [snd].
  destruct (split_join _ eventSeparator_nonEmpty (buffer ++ text)) as [_ F].
  pose proof (split_nonEmpty _ eventSeparator_nonEmpty (buffer ++ text)) as N.
  destruct (exists_last N) as [l [x E]]. rewrite E in *.
  rewrite last_last. apply Forall_app in F. destruct F as [_ F].
  now inversion F.
Qed.

(** The events read are those of the whole text. *)
Lemma readEvents_whole texts : forall buffer,
  cut Chat.eventSeparator buffer = None ->
  Chat.readEvents parse buffer texts
  = (Chat.decodeEvents parse
       (removelast (split Chat.eventSeparator (buffer ++ concat texts))),
     last (split Chat.eventSeparator (buffer ++ concat texts)) []).
Proof.
  induction texts as [|text texts IH]; intros buffer Free.
  - cbn [Chat.readEvents concat]. rewrite app_nil_r.
    rewrite (split_cut _ eventSeparator_nonEmpty buffer), Free. reflexivity.
  - cbn [Chat.readEvents concat].
    pose proof (frameEvents_buffer buffer text) as Free'.
    destruct (Chat.frameEvents buffer text) as [events buffer'] eqn:E.
    cbn [snd] in Free'. rewrite (IH buffer' Free').
    unfold Chat.frameEvents in E. injection E as <- <-.
    rewrite app_assoc.
    rewrite (split_app _ eventSeparator_nonEmpty (concat texts) (buffer ++ text)).
    rewrite removelast_app by apply (split_nonEmpty _ eventSeparator_nonEmpty).
    rewrite last_app_r by apply (split_nonEmpty _ eventSeparator_nonEmpty).
    now rewrite decodeEvents_app.
Qed.

Lemma strictEquals_eq s : forall t, strictEquals s t = true <-> s = t.
Proof.
  induction s as [|a s IH]; intros [|b t]; cbn [strictEquals];
    try (split; [discriminate | discriminate]); [tauto|].
  rewrite andb_true_iff, Ascii.eqb_eq, IH. split.
  - now intros [-> ->].
  - now intros [= -> ->].
Qed.

Lemma find_prefix p s : find p (p ++ s) = Some 0.
Proof.
  assert (H : startsWith (p ++ s) p = true)
    by (apply startsWith_split; now exists s).
  destruct p as [|a p]; [destruct s; reflexivity|].
  cbn [find app] in *. now rewrite H.
Qed.

Lemma trim_nonEmpty c s : isWhiteSpace c = false -> trim (c :: s) <> [].
Proof.
  intros W. unfold trim. cbn [trimStart]. rewrite W.
  rewrite (trimEnd_cons c s W). discriminate.
Qed.

End Events.
(** X18: [extractTagContent] on a completed region.  When the content
    has a completed region of the tag, the result is the trimmed
    content of the first one. *)
Theorem extractTagContent_first_region (content tagName inner rest : jsstring) :
  firstRegion (str "<" ++ tagName ++ str ">") (str "</" ++ tagName ++ str ">")
    content = Some (inner, rest) ->
  Chat.extractTagContent content tagName = trim inner.
Proof.
  unfold firstRegion. rewrite extractTagContent_cut.
  destruct (cut (str "<" ++ tagName ++ str ">") content) as [[b a]|];
    [|discriminate].
  intros C. now rewrite C.
Qed.

Lemma extractTagContent_first_region_witness :
  Chat.extractTagContent (str "x<b> 1 </b>y<b>2</b>") (str "b") = trim (str " 1 ").
Proof.
  apply (extractTagContent_first_region _ _ _ (str "y<b>2</b>")).
  vm_compute. reflexivity.
Defined.

(** X19: [extractTagContent] when the closing tag only comes before
    the opening tag.  The content has both tags, but no closing tag
    after the first opening tag: the result is then not empty, it is
    the trimmed text from the start of the content to the end of the
    first opening tag. *)
Theorem extractTagContent_closing_tag_before
    (content tagName before afterOpen : jsstring) :
  cut (str "<" ++ tagName ++ str ">") content = Some (before, afterOpen) ->
  cut (str "</" ++ tagName ++ str ">") afterOpen = None ->
  includes content (str "</" ++ tagName ++ str ">") 0 = true ->
  Chat.extractTagContent content tagName
  = trim (before ++ str "<" ++ tagName ++ str ">").
Proof.
  intros C C' I. rewrite extractTagContent_cut, C, C'.
  rewrite includes_cut, clamp_0 in I. cbn [skipn] in I. now rewrite I.
Qed.

Lemma extractTagContent_closing_tag_before_witness :
  Chat.extractTagContent (str "</b> one <b> two") (str "b")
  = trim (str "</b> one " ++ str "<" ++ str "b" ++ str ">").
Proof.
  apply (extractTagContent_closing_tag_before _ _ _ (str " two"));
    vm_compute; reflexivity.
Defined.

(** X20: the events do not depend on how the response is cut into
    reads.  Two sequences of reads with the same concatenation give
    the same events and leave the same buffer. *)
Theorem events_ignore_the_reads
    (parse : jsstring -> option Chat.StreamChunk) (texts texts' : list jsstring) :
  concat texts = concat texts' ->
  Chat.readEvents parse [] texts = Chat.readEvents parse [] texts'.
Proof.
  intros E. rewrite !readEvents_whole by reflexivity. now rewrite E.
Qed.

Lemma events_ignore_the_reads_witness :
  Chat.readEvents (fun _ => None) []
    [str "data: a"; ["010"%char]; ["010"%char] ++ str "data: b"]
  = Chat.readEvents (fun _ => None) []
      [str "data: a" ++ ["010"%char; "010"%char] ++ str "data: b"].
Proof.
  apply (events_ignore_the_reads (fun _ => None)
           [str "data: a"; ["010"%char]; ["010"%char] ++ str "data: b"]
           [str "data: a" ++ ["010"%char; "010"%char] ++ str "data: b"]).
  vm_compute. reflexivity.
Defined.

(** X21: framing loses no text.  The events cut off a buffer, each
    followed by the separator, and the buffer that is left give back
    the former buffer and the text read; no event holds a separator,
    nor does the buffer that is left. *)
Theorem framing_loses_no_text (buffer text : jsstring) :
  buffer ++ text
  = joinEvents (fst (Chat.frameEvents buffer text))
    ++ snd (Chat.frameEvents buffer text)
  /\ Forall (fun event => cut Chat.eventSeparator event = None)
       (fst (Chat.frameEvents buffer text))
  /\ cut Chat.eventSeparator (snd (Chat.frameEvents buffer text)) = None.
Proof.
  split; [|split].
  - unfold Chat.frameEvents, joinEvents. cbn [fst snd].
    apply (split_join _ eventSeparator_nonEmpty).
  - unfold Chat.frameEvents. cbn [fst].
    destruct (split_join _ eventSeparator_nonEmpty (buffer ++ text)) as [_ F].
    pose proof (split_nonEmpty _ eventSeparator_nonEmpty (buffer ++ text)) as N.
    destruct (exists_last N) as [l [x E]]. rewrite E in *.
    rewrite removelast_last. apply Forall_app in F. tauto.
  - apply frameEvents_buffer.
Qed.

(** X22: without an empty line nothing is handled.  When the whole
    response holds no separator, no event is handled, however the
    response is read; all of it stays in the buffer, which is not
    looked at after the last read. *)
Theorem no_separator_no_event
    (parse : jsstring -> option Chat.StreamChunk) (texts : list jsstring) :
  cut Chat.eventSeparator (concat texts) = None ->
  Chat.readEvents parse [] texts = ([], concat texts).
Proof.
  intros Free. rewrite readEvents_whole by reflexivity. cbn [app].
  rewrite (split_cut _ eventSeparator_nonEmpty), Free. reflexivity.
Qed.

Lemma no_separator_no_event_witness :
  Chat.readEvents (fun _ => Some (Chat.DataChunk [])) []
    [str "data: [DONE]"; ["010"%char]]
  = ([], concat [str "data: [DONE]"; ["010"%char]]).
Proof.
  apply (no_separator_no_event (fun _ => Some (Chat.DataChunk []))
           [str "data: [DONE]"; ["010"%char]]).
  vm_compute. reflexivity.
Defined.

(** X23: the payload of an event.  An event that starts with
    [data: ] is never skipped, and its payload is the trimmed text
    after that prefix, whatever the text holds. *)
Theorem data_event_payload
    (parse : jsstring -> option Chat.StreamChunk) (payload : jsstring) :
  Chat.decodeEvent parse (str "data: " ++ payload)
  = Some (decodedPayload parse (trim payload)).
Proof.
  unfold Chat.decodeEvent, decodedPayload.
  assert (T : truthy (trim (str "data: " ++ payload)) = true).
  { pose proof (trim_nonEmpty "d"%char (str "ata: " ++ payload) eq_refl) as N.
    change (str "data: " ++ payload) with ("d"%char :: str "ata: " ++ payload).
    destruct (trim _); [contradiction | reflexivity]. }
  assert (S : startsWith (str "data: " ++ payload) (str "data: ") = true)
    by (apply startsWith_split; now exists payload).
  rewrite T, S. cbn [negb orb].
  unfold replaceFirst. rewrite find_prefix. cbn [firstn app Nat.add].
  rewrite skipn_app, skipn_all, Nat.sub_diag. cbn [skipn app].
  destruct (strictEquals (trim payload) (str "[DONE]")); [reflexivity|].
  destruct (parse (trim payload)); reflexivity.
Qed.
